(** * Per-key rate limiters: sliding window and throttling

    A shallow embedding of [rate_limiter.py] (class
    [SlidingWindowRateLimiter]) and [rate_limiter_throttling.py] (class
    [ThrottlingRateLimiter]), and the properties of their three methods
    [can_send_message], [record_message] and [time_until_next_allowed].

    Modelling choices.
    - An object is a record with the fields the constructor sets; a method
      takes [self] and returns an [outcome]: the returned value, the object
      after the call and the dictionary/deque writes the call performed, in
      program order.
    - [time.time()] is an input: every method takes one argument per clock
      read it performs.  [record_message] reads the clock twice (once inside
      [can_send_message], once before storing), so it takes two instants.
    - Timestamps and durations are exact numbers, here integers of an
      arbitrary tick ([Z]); the rounding of Python floats is not modelled.
    - A dictionary is a [gmap string _], a deque is a list with its left end
      first. *)

From stdpp Require Import gmap strings list sorting.

Open Scope Z_scope.

(** ** What a method call yields *)

Record outcome (W S A : Type) : Type := Outcome {
  result : A;        (* the value the method returns *)
  after  : S;        (* [self] when the method returns *)
  writes : list W    (* the mutations it performed, oldest first *)
}.
Arguments Outcome {W S A} _ _ _.
Arguments result {W S A} _.
Arguments after {W S A} _.
Arguments writes {W S A} _.

(** A clock that never runs backward: successive readings do not decrease. *)
Fixpoint nondecreasing (readings : list Z) : Prop :=
  match readings with
  | x :: (y :: _) as rest => x <= y /\ nondecreasing rest
  | _ => True
  end.

(** ** rate_limiter.py *)

Module SlidingWindow.

(** [self.window_size], [self.max_requests], [self.users_history]. *)
Record SlidingWindowRateLimiter : Type := {
  window_size   : Z;
  max_requests  : Z;
  users_history : gmap string (list Z)
}.

(** [SlidingWindowRateLimiter(window_size, max_requests)]. *)
Definition __init__ (window_size max_requests : Z) : SlidingWindowRateLimiter :=
  {| window_size := window_size;
     max_requests := max_requests;
     users_history := ∅ |}.

Definition set_history (self : SlidingWindowRateLimiter)
    (h : gmap string (list Z)) : SlidingWindowRateLimiter :=
  {| window_size := window_size self;
     max_requests := max_requests self;
     users_history := h |}.

(** The same object under another limit (used to compare limits). *)
Definition with_max_requests (self : SlidingWindowRateLimiter) (n : Z)
    : SlidingWindowRateLimiter :=
  {| window_size := window_size self;
     max_requests := n;
     users_history := users_history self |}.

(** The statements of the class that change [users_history]. *)
Inductive write : Type :=
| Popleft (user_id : string)            (* users_history[user_id].popleft() *)
| DelUser (user_id : string)            (* del users_history[user_id] *)
| NewDeque (user_id : string)           (* users_history[user_id] = deque() *)
| Append (user_id : string) (t : Z).    (* users_history[user_id].append(t) *)

Definition apply_write (h : gmap string (list Z)) (w : write)
    : gmap string (list Z) :=
  match w with
  | Popleft k => match h !! k with Some q => <[k := tail q]> h | None => h end
  | DelUser k => delete k h
  | NewDeque k => <[k := []]> h
  | Append k t => match h !! k with Some q => <[k := q ++ [t]]> h | None => h end
  end.

Definition apply_writes (h : gmap string (list Z)) (ws : list write)
    : gmap string (list Z) :=
  fold_left apply_write ws h.

Abbreviation call_outcome := (outcome write SlidingWindowRateLimiter).

(** The loop of [_cleanup_window]:
    [while q and q[0] < window_start_time: q.popleft()]. *)
Fixpoint drop_expired (window_start_time : Z) (q : list Z) : list Z :=
  match q with
  | oldest :: q' =>
      if oldest <? window_start_time then drop_expired window_start_time q'
      else q
  | [] => []
  end.

Definition _cleanup_window (self : SlidingWindowRateLimiter)
    (user_id : string) (current_time : Z) : call_outcome unit :=
  match users_history self !! user_id with
  | Some q =>
      let window_start_time := current_time - window_size self in
      let q' := drop_expired window_start_time q in
      let pops := replicate (length q - length q') (Popleft user_id) in
      match q' with
      | [] =>
          Outcome tt (set_history self (delete user_id (users_history self)))
                  (pops ++ [DelUser user_id])
      | _ :: _ =>
          Outcome tt (set_history self (<[user_id := q']> (users_history self)))
                  pops
      end
  | None => Outcome tt self []
  end.

Definition can_send_message (self : SlidingWindowRateLimiter)
    (user_id : string) (current_time : Z) : call_outcome bool :=
  let c := _cleanup_window self user_id current_time in
  let self := after c in
  match users_history self !! user_id with
  | None => Outcome true self (writes c)
  | Some q =>
      Outcome (Z.of_nat (length q) <? max_requests self) self (writes c)
  end.

(** [t_check] is the clock read inside [can_send_message], [current_time]
    the one taken before the timestamp is stored. *)
Definition record_message (self : SlidingWindowRateLimiter)
    (user_id : string) (t_check current_time : Z) : call_outcome bool :=
  let c := can_send_message self user_id t_check in
  let self := after c in
  if result c then
    match users_history self !! user_id with
    | None =>
        Outcome true
          (set_history self (<[user_id := [current_time]]> (users_history self)))
          (writes c ++ [NewDeque user_id; Append user_id current_time])
    | Some q =>
        Outcome true
          (set_history self (<[user_id := q ++ [current_time]]> (users_history self)))
          (writes c ++ [Append user_id current_time])
    end
  else Outcome false self (writes c).

(** The returned value is [None] where Python raises [IndexError] on
    [self.users_history[user_id][0]]. *)
Definition time_until_next_allowed (self : SlidingWindowRateLimiter)
    (user_id : string) (current_time : Z) : call_outcome (option Z) :=
  let c := _cleanup_window self user_id current_time in
  let self := after c in
  match users_history self !! user_id with
  | None => Outcome (Some 0) self (writes c)
  | Some q =>
      if Z.of_nat (length q) <? max_requests self
      then Outcome (Some 0) self (writes c)
      else
        match q with
        | oldest_message_time :: _ =>
            let wait_time :=
              window_size self - (current_time - oldest_message_time) in
            Outcome (Some (Z.max 0 wait_time)) self (writes c)
        | [] => Outcome None self (writes c)
        end
  end.

(** A caller's use of the object: one public method call with the instants
    its clock reads return. *)
Inductive call : Type :=
| CanSend (user_id : string) (t : Z)
| RecordMessage (user_id : string) (t_check t : Z)
| TimeUntil (user_id : string) (t : Z).

Definition step (self : SlidingWindowRateLimiter) (c : call)
    : SlidingWindowRateLimiter :=
  match c with
  | CanSend k t => after (can_send_message self k t)
  | RecordMessage k t1 t2 => after (record_message self k t1 t2)
  | TimeUntil k t => after (time_until_next_allowed self k t)
  end.

Definition run (self : SlidingWindowRateLimiter) (calls : list call)
    : SlidingWindowRateLimiter :=
  fold_left step calls self.

Definition clock_reads (c : call) : list Z :=
  match c with
  | CanSend _ t => [t]
  | RecordMessage _ t1 t2 => [t1; t2]
  | TimeUntil _ t => [t]
  end.

Definition clock (calls : list call) : list Z :=
  concat (map clock_reads calls).

(** The states a program can bring a limiter to through its methods. *)
Inductive reachable : SlidingWindowRateLimiter -> Prop :=
| reachable_init w n : reachable (__init__ w n)
| reachable_step self c : reachable self -> reachable (step self c).

(** How many stored timestamps of [user_id] lie in the window that ends
    at [now]. *)
Definition count_in_window (self : SlidingWindowRateLimiter)
    (user_id : string) (now : Z) : nat :=
  length (filter (fun t => now - window_size self <= t)
                 (default [] (users_history self !! user_id))).

(** Every stored deque is non-empty and no longer than the limit, where a
    limit below one counts as one (see [can_send_message]: a user without
    history is let through whatever the limit). *)
Definition bounded (self : SlidingWindowRateLimiter) : Prop :=
  forall user_id q,
    users_history self !! user_id = Some q ->
    q <> [] /\ Z.of_nat (length q) <= Z.max 1 (max_requests self).

(** The user a call is made for. *)
Definition call_user (c : call) : string :=
  match c with
  | CanSend k _ => k
  | RecordMessage k _ _ => k
  | TimeUntil k _ => k
  end.

(** The admitted events of [user_id] in a run: the instants stored by the
    [record_message] calls for [user_id] that returned [True], in call
    order. *)
Fixpoint admitted (user_id : string) (self : SlidingWindowRateLimiter)
    (calls : list call) : list Z :=
  match calls with
  | [] => []
  | c :: calls' =>
      let rest := admitted user_id (step self c) calls' in
      match c with
      | RecordMessage k t1 t2 =>
          if bool_decide (k = user_id) && result (record_message self k t1 t2)
          then t2 :: rest else rest
      | _ => rest
      end
  end.

(** The deque of a user, empty when the user has no entry. *)
Definition history_of (self : SlidingWindowRateLimiter) (user_id : string)
    : list Z :=
  default [] (users_history self !! user_id).

(** The number of admitted events that the limiter lets into one window:
    [max_requests], or one when [max_requests] is below one. *)
Definition burst (self : SlidingWindowRateLimiter) : nat :=
  Z.to_nat (Z.max 1 (max_requests self)).

(** A run without its [can_send_message] and [time_until_next_allowed]
    calls. *)
Fixpoint records_only (calls : list call) : list call :=
  match calls with
  | [] => []
  | RecordMessage k t1 t2 :: calls' => RecordMessage k t1 t2 :: records_only calls'
  | _ :: calls' => records_only calls'
  end.

(** Two objects that no cleanup at an instant from [from] on can tell
    apart: same configuration, and for every user the same deque once the
    timestamps older than a window start [ws >= from - window_size] are
    dropped. *)
Definition agree_from (from : Z) (self1 self2 : SlidingWindowRateLimiter)
    : Prop :=
  window_size self1 = window_size self2 /\
  max_requests self1 = max_requests self2 /\
  forall user_id ws,
    from - window_size self2 <= ws ->
    drop_expired ws (history_of self1 user_id) =
    drop_expired ws (history_of self2 user_id).

End SlidingWindow.

(** ** rate_limiter_throttling.py *)

Module Throttling.

(** [self.min_interval], [self.last_message_time]. *)
Record ThrottlingRateLimiter : Type := {
  min_interval      : Z;
  last_message_time : gmap string Z
}.

(** [ThrottlingRateLimiter(min_interval)]. *)
Definition __init__ (min_interval : Z) : ThrottlingRateLimiter :=
  {| min_interval := min_interval; last_message_time := ∅ |}.

(** The one statement that changes [last_message_time]. *)
Inductive write : Type :=
| SetLast (user_id : string) (t : Z).   (* last_message_time[user_id] = t *)

Definition apply_write (m : gmap string Z) (w : write) : gmap string Z :=
  match w with SetLast k t => <[k := t]> m end.

Definition apply_writes (m : gmap string Z) (ws : list write) : gmap string Z :=
  fold_left apply_write ws m.

Abbreviation call_outcome := (outcome write ThrottlingRateLimiter).

Definition can_send_message (self : ThrottlingRateLimiter)
    (user_id : string) (now : Z) : call_outcome bool :=
  match last_message_time self !! user_id with
  | None => Outcome true self []
  | Some last_time =>
      Outcome (min_interval self <=? now - last_time) self []
  end.

(** [t_check] is the clock read inside [can_send_message], [now] the one
    that is stored.  For a user without a stored instant
    [can_send_message] returns before it reads the clock, and its instant
    argument is not used. *)
Definition record_message (self : ThrottlingRateLimiter)
    (user_id : string) (t_check now : Z) : call_outcome bool :=
  let c := can_send_message self user_id t_check in
  let self := after c in
  if result c then
    Outcome true
      {| min_interval := min_interval self;
         last_message_time := <[user_id := now]> (last_message_time self) |}
      (writes c ++ [SetLast user_id now])
  else Outcome false self (writes c).

Definition time_until_next_allowed (self : ThrottlingRateLimiter)
    (user_id : string) (now : Z) : call_outcome Z :=
  match last_message_time self !! user_id with
  | None => Outcome 0 self []
  | Some last_time =>
      let time_to_wait := min_interval self - (now - last_time) in
      Outcome (Z.max 0 time_to_wait) self []
  end.

Inductive call : Type :=
| CanSend (user_id : string) (t : Z)
| RecordMessage (user_id : string) (t_check t : Z)
| TimeUntil (user_id : string) (t : Z).

Definition step (self : ThrottlingRateLimiter) (c : call)
    : ThrottlingRateLimiter :=
  match c with
  | CanSend k t => after (can_send_message self k t)
  | RecordMessage k t1 t2 => after (record_message self k t1 t2)
  | TimeUntil k t => after (time_until_next_allowed self k t)
  end.

Definition run (self : ThrottlingRateLimiter) (calls : list call)
    : ThrottlingRateLimiter :=
  fold_left step calls self.

Definition clock_reads (c : call) : list Z :=
  match c with
  | CanSend _ t => [t]
  | RecordMessage _ t1 t2 => [t1; t2]
  | TimeUntil _ t => [t]
  end.

Definition clock (calls : list call) : list Z :=
  concat (map clock_reads calls).

(** The admitted events of [user_id] in a run: the instants stored by the
    [record_message] calls for [user_id] that returned [True], in call
    order. *)
Fixpoint admitted (user_id : string) (self : ThrottlingRateLimiter)
    (calls : list call) : list Z :=
  match calls with
  | [] => []
  | c :: calls' =>
      let rest := admitted user_id (step self c) calls' in
      match c with
      | RecordMessage k t1 t2 =>
          if bool_decide (k = user_id) && result (record_message self k t1 t2)
          then t2 :: rest else rest
      | _ => rest
      end
  end.

(** The user a call is made for. *)
Definition call_user (c : call) : string :=
  match c with
  | CanSend k _ => k
  | RecordMessage k _ _ => k
  | TimeUntil k _ => k
  end.

(** The instants of all [record_message] calls for [user_id], admitted or
    not, in call order. *)
Definition recorded (user_id : string) (calls : list call) : list Z :=
  omap (fun c =>
          match c with
          | RecordMessage k _ t => if bool_decide (k = user_id) then Some t else None
          | _ => None
          end) calls.

End Throttling.

(** * Properties of the sliding-window limiter *)

Section SlidingWindowFacts.
Import SlidingWindow.

(** ** The cleanup loop *)

Lemma drop_expired_suffix ws q : drop_expired ws q `suffix_of` q.
Proof.
  induction q as [|x q IH]; simpl; [done|].
  destruct (x <? ws); [by apply suffix_cons_r | done].
Qed.

Lemma drop_expired_length ws q :
  (length (drop_expired ws q) <= length q)%nat.
Proof. apply suffix_length, drop_expired_suffix. Qed.

Lemma drop_expired_same_length ws q :
  length (drop_expired ws q) = length q -> drop_expired ws q = q.
Proof.
  destruct (drop_expired_suffix ws q) as [p Hp]. intros Hlen.
  rewrite Hp in Hlen at 2. rewrite length_app in Hlen.
  destruct p; [by rewrite Hp at 2 | simpl in Hlen; lia].
Qed.

Lemma drop_expired_drop ws q :
  drop_expired ws q = drop (length q - length (drop_expired ws q)) q.
Proof.
  induction q as [|x q IH]; simpl; [done|].
  destruct (x <? ws).
  - pose proof (drop_expired_length ws q).
    replace (S (length q) - length (drop_expired ws q))%nat
      with (S (length q - length (drop_expired ws q))) by lia.
    done.
  - by rewrite Nat.sub_diag.
Qed.

Lemma drop_expired_head ws q x q' :
  drop_expired ws q = x :: q' -> ws <= x.
Proof.
  induction q as [|y q IH]; simpl; [done|].
  destruct (y <? ws) eqn:E; [done|].
  intros [= -> _]. lia.
Qed.

Lemma drop_expired_idem ws q :
  drop_expired ws (drop_expired ws q) = drop_expired ws q.
Proof.
  induction q as [|x q IH]; simpl; [done|].
  destruct (x <? ws) eqn:E; [done|]. simpl. by rewrite E.
Qed.

Lemma drop_expired_all_stale ws q :
  Forall (fun t => t < ws) q -> drop_expired ws q = [].
Proof.
  induction 1 as [|x q Hx _ IH]; simpl; [done|].
  destruct (x <? ws) eqn:E; [done | lia].
Qed.

(** ** [_cleanup_window] *)

Lemma set_history_id self : set_history self (users_history self) = self.
Proof. by destruct self. Qed.

Lemma cleanup_window_size self k now :
  window_size (after (_cleanup_window self k now)) = window_size self.
Proof.
  unfold _cleanup_window. destruct (users_history self !! k); [|done].
  by destruct (drop_expired _ _).
Qed.

Lemma cleanup_max_requests self k now :
  max_requests (after (_cleanup_window self k now)) = max_requests self.
Proof.
  unfold _cleanup_window. destruct (users_history self !! k); [|done].
  by destruct (drop_expired _ _).
Qed.

(** The entry of the cleaned user: its deque without the expired prefix,
    or no entry when nothing is left. *)
Lemma cleanup_lookup self k now :
  users_history (after (_cleanup_window self k now)) !! k =
  match users_history self !! k with
  | Some q =>
      match drop_expired (now - window_size self) q with
      | [] => None
      | q' => Some q'
      end
  | None => None
  end.
Proof.
  unfold _cleanup_window. destruct (users_history self !! k) eqn:E; [|done].
  destruct (drop_expired _ _); simpl.
  - apply lookup_delete_eq.
  - apply lookup_insert_eq.
Qed.

Lemma cleanup_lookup_ne self k now k' :
  k <> k' ->
  users_history (after (_cleanup_window self k now)) !! k' =
  users_history self !! k'.
Proof.
  intros Hne. unfold _cleanup_window.
  destruct (users_history self !! k); [|done].
  destruct (drop_expired _ _); simpl.
  - by apply lookup_delete_ne.
  - by apply lookup_insert_ne.
Qed.

(** A cleanup that pops nothing from a non-empty deque changes nothing. *)
Lemma cleanup_nothing_expired self k now q :
  users_history self !! k = Some q -> q <> [] ->
  drop_expired (now - window_size self) q = q ->
  _cleanup_window self k now = Outcome tt self [].
Proof.
  intros Hk Hq Hd. unfold _cleanup_window. rewrite Hk, Hd.
  destruct q; [done|]. rewrite Nat.sub_diag. simpl.
  by rewrite insert_id, set_history_id.
Qed.

(** ** The three methods in terms of the cleaned object *)

Lemma can_send_after self k now :
  after (can_send_message self k now) = after (_cleanup_window self k now).
Proof. unfold can_send_message. simpl. by destruct (_ !! _). Qed.

Lemma can_send_writes self k now :
  writes (can_send_message self k now) = writes (_cleanup_window self k now).
Proof. unfold can_send_message. simpl. by destruct (_ !! _). Qed.

Lemma can_send_result self k now :
  result (can_send_message self k now) =
  match users_history (after (_cleanup_window self k now)) !! k with
  | None => true
  | Some q => Z.of_nat (length q) <? max_requests self
  end.
Proof.
  unfold can_send_message. simpl. rewrite cleanup_max_requests.
  by destruct (_ !! _).
Qed.

Lemma time_until_after self k now :
  after (time_until_next_allowed self k now) =
  after (_cleanup_window self k now).
Proof.
  unfold time_until_next_allowed. simpl.
  destruct (_ !! _) as [[|]|]; [| |done]; by destruct (_ <? _).
Qed.

Lemma time_until_writes self k now :
  writes (time_until_next_allowed self k now) =
  writes (_cleanup_window self k now).
Proof.
  unfold time_until_next_allowed. simpl.
  destruct (_ !! _) as [[|]|]; [| |done]; by destruct (_ <? _).
Qed.

Lemma record_message_unfold self k t1 t2 :
  let c := _cleanup_window self k t1 in
  record_message self k t1 t2 =
  match users_history (after c) !! k with
  | None =>
      Outcome true
        (set_history (after c) (<[k := [t2]]> (users_history (after c))))
        (writes c ++ [NewDeque k; Append k t2])
  | Some q =>
      if Z.of_nat (length q) <? max_requests self
      then Outcome true
             (set_history (after c) (<[k := q ++ [t2]]> (users_history (after c))))
             (writes c ++ [Append k t2])
      else Outcome false (after c) (writes c)
  end.
Proof.
  intros c. unfold record_message. rewrite can_send_result.
  rewrite can_send_after, can_send_writes. fold c.
  destruct (users_history (after c) !! k) eqn:E; [|done].
  by destruct (_ <? _).
Qed.

(** ** Configuration is immutable *)

Lemma step_config self c :
  window_size (step self c) = window_size self /\
  max_requests (step self c) = max_requests self.
Proof.
  destruct c as [k t|k t1 t2|k t]; simpl.
  - rewrite can_send_after. auto using cleanup_window_size, cleanup_max_requests.
  - rewrite record_message_unfold.
    pose proof (cleanup_window_size self k t1).
    pose proof (cleanup_max_requests self k t1).
    destruct (_ !! _); [destruct (_ <? _)|]; by simpl.
  - rewrite time_until_after. auto using cleanup_window_size, cleanup_max_requests.
Qed.

Lemma run_config self calls :
  window_size (run self calls) = window_size self /\
  max_requests (run self calls) = max_requests self.
Proof.
  revert self. induction calls as [|c calls IH]; intros self; simpl; [done|].
  destruct (IH (step self c)) as [-> ->]. apply step_config.
Qed.

Lemma run_reachable w n calls : reachable (run (__init__ w n) calls).
Proof.
  unfold run. induction calls as [|c calls IH] using rev_ind; simpl.
  - constructor.
  - rewrite fold_left_app. simpl. by constructor.
Qed.

Lemma reachable_run self :
  reachable self -> exists w n calls, self = run (__init__ w n) calls.
Proof.
  induction 1 as [w n|self c _ (w & n & calls & ->)].
  - by exists w, n, [].
  - exists w, n, (calls ++ [c]). unfold run. by rewrite fold_left_app.
Qed.

(** ** The invariant [bounded] *)

Lemma bounded_init w n : bounded (__init__ w n).
Proof. intros k q. simpl. by rewrite lookup_empty. Qed.

Lemma bounded_cleanup self k now :
  bounded self -> bounded (after (_cleanup_window self k now)).
Proof.
  intros Hb k' q' Hk'. rewrite cleanup_max_requests.
  destruct (decide (k = k')) as [<-|Hne].
  - rewrite cleanup_lookup in Hk'.
    destruct (users_history self !! k) as [q|] eqn:Hk; [|done].
    pose proof (drop_expired_length (now - window_size self) q) as Hlen.
    destruct (drop_expired _ q) eqn:Hd; [done|].
    injection Hk' as <-. split; [done|].
    apply Hb in Hk as [_ Hk]. lia.
  - rewrite cleanup_lookup_ne in Hk' by done. by eapply Hb.
Qed.

Lemma bounded_record self k t1 t2 :
  bounded self -> bounded (after (record_message self k t1 t2)).
Proof.
  intros Hb. rewrite record_message_unfold.
  pose proof (bounded_cleanup self k t1 Hb) as Hc.
  pose proof (cleanup_max_requests self k t1) as Hm.
  destruct (_ !! k) as [q|] eqn:Hq; [destruct (_ <? _) eqn:Hlt|];
    simpl; [|done|]; intros k' q' Hk'; simpl in *; rewrite Hm;
    (destruct (decide (k = k')) as [<-|Hne];
     [rewrite lookup_insert_eq in Hk'; injection Hk' as <-
     |rewrite lookup_insert_ne in Hk' by done;
      rewrite <- Hm; by eapply Hc]).
  - split; [by destruct q|]. rewrite length_app. simpl. lia.
  - split; [done|]. simpl. lia.
Qed.

Lemma bounded_step self c : bounded self -> bounded (step self c).
Proof.
  destruct c as [k t|k t1 t2|k t]; simpl.
  - rewrite can_send_after. apply bounded_cleanup.
  - apply bounded_record.
  - rewrite time_until_after. apply bounded_cleanup.
Qed.

Lemma reachable_bounded self : reachable self -> bounded self.
Proof. induction 1; auto using bounded_init, bounded_step. Qed.

(** ** The write log describes the change of state *)

Lemma apply_poplefts k n : forall h q,
  h !! k = Some q ->
  apply_writes h (replicate n (Popleft k)) = <[k := drop n q]> h.
Proof.
  unfold apply_writes.
  induction n as [|n IH]; intros h q Hk; simpl.
  - by rewrite drop_0, insert_id.
  - rewrite Hk. rewrite (IH _ (tail q)) by apply lookup_insert_eq.
    rewrite insert_insert_eq. destruct q; simpl; [by rewrite drop_nil | done].
Qed.

Lemma cleanup_writes_sound self k now :
  let c := _cleanup_window self k now in
  users_history (after c) = apply_writes (users_history self) (writes c).
Proof.
  unfold _cleanup_window.
  destruct (users_history self !! k) as [q|] eqn:Hk; [|done].
  pose proof (drop_expired_drop (now - window_size self) q) as Hd.
  destruct (drop_expired _ q) eqn:E; simpl in *.
  - unfold apply_writes. rewrite fold_left_app. simpl.
    fold (apply_writes (users_history self)
            (replicate (length q - 0) (Popleft k))).
    rewrite (apply_poplefts _ _ _ q) by done.
    by rewrite delete_insert_eq.
  - rewrite (apply_poplefts _ _ _ q) by done. by rewrite <- Hd.
Qed.

Lemma can_send_writes_sound self k now :
  let c := can_send_message self k now in
  users_history (after c) = apply_writes (users_history self) (writes c).
Proof.
  simpl. rewrite can_send_after, can_send_writes.
  apply cleanup_writes_sound.
Qed.

Lemma time_until_writes_sound self k now :
  let c := time_until_next_allowed self k now in
  users_history (after c) = apply_writes (users_history self) (writes c).
Proof.
  simpl. rewrite time_until_after, time_until_writes.
  apply cleanup_writes_sound.
Qed.

Lemma record_writes_sound self k t1 t2 :
  let c := record_message self k t1 t2 in
  users_history (after c) = apply_writes (users_history self) (writes c).
Proof.
  simpl. rewrite record_message_unfold.
  pose proof (cleanup_writes_sound self k t1) as Hc. simpl in Hc.
  destruct (_ !! k) as [q|] eqn:Hq; [destruct (_ <? _)|]; simpl; [|done|];
    unfold apply_writes in *; rewrite fold_left_app, <- Hc; simpl.
  - by rewrite Hq.
  - by rewrite lookup_insert_eq, insert_insert_eq.
Qed.

(** ** A denied [record_message] on a bounded object *)

Lemma record_denied_untouched self k t1 t2 :
  bounded self ->
  result (record_message self k t1 t2) = false ->
  record_message self k t1 t2 = Outcome false self [].
Proof.
  intros Hb. rewrite record_message_unfold. simpl.
  rewrite cleanup_lookup.
  destruct (users_history self !! k) as [q|] eqn:Hk; [|done].
  pose proof (drop_expired_length (t1 - window_size self) q) as Hlen.
  destruct (drop_expired _ q) as [|x q'] eqn:Hd; [done|].
  destruct (_ <? _) eqn:Hlt; [done|]. intros _.
  destruct (Hb _ _ Hk) as [Hne Hmax].
  assert (drop_expired (t1 - window_size self) q = q) as Hsame.
  { apply drop_expired_same_length. rewrite Hd in *. simpl in *.
    apply Z.ltb_ge in Hlt. lia. }
  by rewrite (cleanup_nothing_expired self k t1 q).
Qed.

(** A denied call never appends, whatever the object. *)
Lemma record_denied_no_append self k t1 t2 :
  result (record_message self k t1 t2) = false ->
  forall w, w ∈ writes (record_message self k t1 t2) ->
    w = Popleft k \/ w = DelUser k.
Proof.
  rewrite record_message_unfold. simpl.
  destruct (_ !! k) as [q|]; [destruct (_ <? _)|]; simpl; [done| |done].
  intros _ w. unfold _cleanup_window.
  destruct (users_history self !! k); [|by intros ?%elem_of_nil].
  destruct (drop_expired _ _); simpl.
  - rewrite elem_of_app, elem_of_replicate, list_elem_of_singleton. tauto.
  - rewrite elem_of_replicate. tauto.
Qed.

(** ** A limit below one acts as the limit one *)

Lemma cleanup_with_max_requests self n k now :
  _cleanup_window (with_max_requests self n) k now =
  Outcome tt (with_max_requests (after (_cleanup_window self k now)) n)
          (writes (_cleanup_window self k now)).
Proof.
  unfold _cleanup_window. simpl.
  destruct (users_history self !! k); [|done].
  by destruct (drop_expired _ _).
Qed.

Lemma nonpositive_limit_acts_as_one self k t1 t2 :
  max_requests self <= 0 ->
  let o := record_message self k t1 t2 in
  let o1 := record_message (with_max_requests self 1) k t1 t2 in
  result o = result o1 /\
  users_history (after o) = users_history (after o1) /\
  writes o = writes o1.
Proof.
  intros Hmax. cbn zeta. rewrite !record_message_unfold. cbn zeta.
  rewrite cleanup_with_max_requests. simpl.
  pose proof (cleanup_lookup self k t1) as Hl.
  destruct (users_history self !! k) as [q0|] eqn:Hk; rewrite Hl; [|done].
  destruct (drop_expired _ q0) as [|x q]; [done|].
  replace (Z.of_nat (length (x :: q)) <? max_requests self) with false
    by (symmetry; apply Z.ltb_ge; lia).
  replace (Z.of_nat (length (x :: q)) <? 1) with false
    by (symmetry; apply Z.ltb_ge; simpl; lia).
  done.
Qed.

(** ** Cleaning twice at one instant *)

Lemma cleanup_entry_nonempty self k now :
  users_history (after (_cleanup_window self k now)) !! k <> Some [].
Proof.
  rewrite cleanup_lookup. destruct (_ !! k); [|done].
  by destruct (drop_expired _ _).
Qed.


Lemma cleanup_idem self k now :
  let self' := after (_cleanup_window self k now) in
  _cleanup_window self' k now = Outcome tt self' [].
Proof.
  intros self'.
  pose proof (cleanup_lookup self k now) as Hl. fold self' in Hl.
  pose proof (cleanup_window_size self k now) as Hw. fold self' in Hw.
  destruct (users_history self !! k) as [q|] eqn:Hk.
  - pose proof (drop_expired_idem (now - window_size self) q) as Hi.
    destruct (drop_expired _ q) as [|x q'] eqn:Hd.
    + unfold _cleanup_window. by rewrite Hl.
    + apply (cleanup_nothing_expired _ _ _ (x :: q')); [done|done|].
      by rewrite Hw.
  - unfold _cleanup_window. by rewrite Hl.
Qed.

Lemma time_until_result self k now :
  result (time_until_next_allowed self k now) =
  match users_history (after (_cleanup_window self k now)) !! k with
  | None => Some 0
  | Some q =>
      if Z.of_nat (length q) <? max_requests self then Some 0
      else match q with
           | oldest :: _ => Some (Z.max 0 (window_size self - (now - oldest)))
           | [] => None
           end
  end.
Proof.
  unfold time_until_next_allowed. simpl.
  rewrite cleanup_max_requests, cleanup_window_size.
  destruct (_ !! _) as [[|]|]; [| |done]; by destruct (_ <? _).
Qed.

(** [time_until_next_allowed] never reaches the [IndexError]. *)
Lemma time_until_returns self k now :
  exists v, result (time_until_next_allowed self k now) = Some v.
Proof.
  rewrite time_until_result.
  pose proof (cleanup_entry_nonempty self k now) as Hne.
  destruct (_ !! _) as [[|x q]|]; [done| |by eauto].
  destruct (_ <? _); eauto.
Qed.

End SlidingWindowFacts.

(** * Properties of the throttling limiter *)

Section ThrottlingFacts.
Import Throttling.

Lemma th_can_send_pure self k now :
  after (can_send_message self k now) = self /\
  writes (can_send_message self k now) = [].
Proof. unfold can_send_message. by destruct (_ !! _). Qed.

Lemma th_time_until_pure self k now :
  after (time_until_next_allowed self k now) = self /\
  writes (time_until_next_allowed self k now) = [].
Proof. unfold time_until_next_allowed. by destruct (_ !! _). Qed.

Lemma th_record_message_unfold self k t1 t2 :
  record_message self k t1 t2 =
  if result (can_send_message self k t1)
  then Outcome true
         {| min_interval := min_interval self;
            last_message_time := <[k := t2]> (last_message_time self) |}
         [SetLast k t2]
  else Outcome false self [].
Proof.
  unfold record_message.
  destruct (th_can_send_pure self k t1) as [-> ->].
  by destruct (result _).
Qed.

Lemma th_record_writes_sound self k t1 t2 :
  let o := record_message self k t1 t2 in
  min_interval (after o) = min_interval self /\
  last_message_time (after o) =
  apply_writes (last_message_time self) (writes o).
Proof.
  simpl. rewrite th_record_message_unfold.
  by destruct (result (can_send_message self k t1)).
Qed.

Lemma th_step_min_interval self c :
  min_interval (step self c) = min_interval self.
Proof.
  destruct c as [k t|k t1 t2|k t]; simpl.
  - by destruct (th_can_send_pure self k t) as [-> _].
  - rewrite th_record_message_unfold. by destruct (result _).
  - by destruct (th_time_until_pure self k t) as [-> _].
Qed.

(** Calls for another user, checks and denied calls leave the stored
    instant of [user_id] alone. *)
Lemma th_step_lookup self c user_id :
  last_message_time (step self c) !! user_id =
  match c with
  | RecordMessage k t1 t2 =>
      if bool_decide (k = user_id) && result (record_message self k t1 t2)
      then Some t2 else last_message_time self !! user_id
  | _ => last_message_time self !! user_id
  end.
Proof.
  destruct c as [k t|k t1 t2|k t]; simpl.
  - by destruct (th_can_send_pure self k t) as [-> _].
  - rewrite th_record_message_unfold.
    destruct (result (can_send_message self k t1)); simpl.
    + case_bool_decide as Hk; simpl.
      * subst. apply lookup_insert_eq.
      * by apply lookup_insert_ne.
    + by rewrite andb_false_r.
  - by destruct (th_time_until_pure self k t) as [-> _].
Qed.

(** ** Spacing of admitted events *)

Lemma nondecreasing_tail x l : nondecreasing (x :: l) -> nondecreasing l.
Proof. destruct l; simpl; tauto. Qed.

Lemma nondecreasing_lower_bound x l :
  nondecreasing (x :: l) -> Forall (fun y => x <= y) l.
Proof.
  revert x. induction l as [|y l IH]; intros x; [by constructor|].
  intros [Hxy Hl]. constructor; [done|].
  eapply Forall_impl; [by apply IH|]. simpl. lia.
Qed.

Lemma nondecreasing_cons2 x y l :
  nondecreasing (x :: y :: l) <-> x <= y /\ nondecreasing (y :: l).
Proof. done. Qed.

Lemma clock_cons c calls : clock (c :: calls) = clock_reads c ++ clock calls.
Proof. done. Qed.

Lemma nondecreasing_clock_tail c calls :
  nondecreasing (clock (c :: calls)) -> nondecreasing (clock calls).
Proof.
  rewrite clock_cons.
  destruct c; cbn [clock_reads app]; eauto using nondecreasing_tail.
Qed.

Lemma admitted_in_clock k calls : forall self a,
  a ∈ admitted k self calls -> a ∈ clock calls.
Proof.
  induction calls as [|c calls IH]; intros self a; simpl; [done|].
  unfold clock in *. simpl.
  destruct c as [k' t|k' t1 t2|k' t]; simpl.
  - intros ?%IH. by right.
  - destruct (_ && _).
    + intros [->|?%IH]%elem_of_cons; [right; left | by do 2 right].
    + intros ?%IH. by do 2 right.
  - intros ?%IH. by right.
Qed.

Lemma record_result self k t1 t2 :
  result (record_message self k t1 t2) = result (can_send_message self k t1).
Proof.
  rewrite th_record_message_unfold.
  by destruct (result (can_send_message self k t1)).
Qed.

(** Every event admitted after [last] was stored for [user_id] comes at
    least [min_interval] later. *)
Lemma admitted_after_last k calls : forall self last,
  nondecreasing (clock calls) ->
  last_message_time self !! k = Some last ->
  Forall (fun a => min_interval self <= a - last) (admitted k self calls).
Proof.
  induction calls as [|c calls IH]; intros self last Hnd Hlast;
    [by constructor|].
  pose proof (th_step_lookup self c k) as Hstep.
  pose proof (th_step_min_interval self c) as Hint.
  pose proof (nondecreasing_clock_tail _ _ Hnd) as Hnd'.
  cbn [admitted].
  destruct c as [k' t|k' t1 t2|k' t].
  - rewrite <- Hint. apply IH; [done | congruence].
  - destruct (bool_decide (k' = k) && _) eqn:Hadm.
    + apply andb_true_iff in Hadm as [->%bool_decide_eq_true Hres].
      rewrite record_result in Hres. unfold can_send_message in Hres.
      rewrite Hlast in Hres. simpl in Hres. apply Z.leb_le in Hres.
      rewrite clock_cons in Hnd. cbn [clock_reads app] in Hnd.
      apply nondecreasing_cons2 in Hnd as [H12 Hnd].
      apply nondecreasing_lower_bound in Hnd.
      rewrite Forall_forall in Hnd.
      constructor; [lia|].
      apply Forall_forall. intros a Ha%admitted_in_clock.
      apply Hnd in Ha. lia.
    + rewrite <- Hint. apply IH; [done | congruence].
  - rewrite <- Hint. apply IH; [done | congruence].
Qed.

Lemma admitted_spaced k calls : forall self,
  nondecreasing (clock calls) ->
  StronglySorted (fun a b => min_interval self <= b - a)
                 (admitted k self calls).
Proof.
  induction calls as [|c calls IH]; intros self Hnd; [constructor|].
  pose proof (th_step_min_interval self c) as Hint.
  pose proof (nondecreasing_clock_tail _ _ Hnd) as Hnd'.
  specialize (IH (step self c) Hnd'). rewrite Hint in IH.
  cbn [admitted].
  destruct c as [k' t|k' t1 t2|k' t]; try done.
  destruct (bool_decide (k' = k) && _) eqn:Hadm; [|done].
  constructor; [done|].
  rewrite <- Hint. apply admitted_after_last; [done|].
  by rewrite th_step_lookup, Hadm.
Qed.

Lemma StronglySorted_lookup {A} (R : A -> A -> Prop) (l : list A) :
  StronglySorted R l ->
  forall (i j : nat) x y,
    (i < j)%nat -> l !! i = Some x -> l !! j = Some y -> R x y.
Proof.
  induction 1 as [|a l Hl IH Ha]; intros i j x y Hij Hi Hj; [done|].
  destruct j as [|j]; [lia|]. simpl in Hj.
  destruct i as [|i]; simpl in Hi.
  - injection Hi as <-. rewrite Forall_forall in Ha.
    apply Ha. by eapply list_elem_of_lookup_2.
  - apply (IH i j); [lia|done|done].
Qed.

End ThrottlingFacts.

(** * The specification's claims, checked against the two classes *)

Module SW := SlidingWindow.
Module TH := Throttling.

(** C1: sliding window, at most N.  The specification bounds the number of
    a user's stored timestamps inside the window by [max_requests].  With
    [max_requests = 0] the code stores one: on a fresh limiter
    [record_message] lets the user through without comparing with the
    limit, and the stored timestamp lies in the window of the instant of
    the call. *)
Theorem sw_zero_limit_stores_in_window :
  let calls := [SW.RecordMessage "a" 0 0] in
  let self := SW.run (SW.__init__ 10 0) calls in
  nondecreasing (SW.clock calls) /\
  SW.max_requests self = 0 /\
  SW.count_in_window self "a" 0 = 1%nat.
Proof. cbn zeta. split; [simpl; lia|]. by split. Qed.

(** So the bound, stated for every limit, does not hold. *)
Lemma sw_at_most_n_fails_for_zero_limit :
  ~ (forall w n calls user_id now,
       nondecreasing (SW.clock calls) ->
       Z.of_nat (SW.count_in_window (SW.run (SW.__init__ w n) calls) user_id now)
       <= n).
Proof.
  intros H.
  specialize (H 10 0 [SW.RecordMessage "a" 0 0] "a" 0).
  assert (SW.count_in_window
            (SW.run (SW.__init__ 10 0) [SW.RecordMessage "a" 0 0]) "a" 0
          = 1%nat) as E by reflexivity.
  rewrite E in H. cbn [nondecreasing SW.clock SW.clock_reads map concat app] in H.
  lia.
Qed.

(** Where the limit is at least one the bound holds: after every prefix
    of every sequence of calls, and for every user, the number of stored
    timestamps with value [>= now - window_size] is at most
    [max_requests], for every instant [now]. *)
Theorem sw_at_most_n w n calls user_id (i : nat) now :
  1 <= n ->
  nondecreasing (SW.clock calls) ->
  Z.of_nat (SW.count_in_window (SW.run (SW.__init__ w n) (take i calls)) user_id now)
  <= n.
Proof.
  intros Hn _. set (self := SW.run _ _).
  pose proof (reachable_bounded self (run_reachable w n (take i calls))) as Hb.
  destruct (run_config (SW.__init__ w n) (take i calls)) as [_ Hmax].
  fold self in Hmax. simpl in Hmax.
  unfold SW.count_in_window.
  destruct (SW.users_history self !! user_id) as [q|] eqn:Hq; simpl; [|lia].
  apply Hb in Hq as [_ Hlen]. rewrite Hmax in Hlen.
  pose proof (length_filter (fun t => now - SW.window_size self <= t) q).
  lia.
Qed.

Lemma sw_at_most_n_witness :
  Z.of_nat
    (SW.count_in_window
       (SW.run (SW.__init__ 10 2)
          (take 3 [SW.RecordMessage "a" 0 0; SW.RecordMessage "a" 1 2;
                   SW.RecordMessage "a" 3 3; SW.CanSend "a" 12]))
       "a" 3)
  <= 2.
Proof.
  apply (sw_at_most_n 10 2
           [SW.RecordMessage "a" 0 0; SW.RecordMessage "a" 1 2;
            SW.RecordMessage "a" 3 3; SW.CanSend "a" 12] "a" 3 3).
  - lia.
  - cbn [nondecreasing SW.clock SW.clock_reads map concat app]. lia.
Defined.

(** C4: zero limit.  The specification says that with [max_requests = 0]
    every [record_message] is denied.  The code admits the first message of
    every user: on a fresh limiter with limit zero, [record_message] returns
    [True] and stores the timestamp. *)
Theorem sw_zero_limit_admits w user_id t_check t :
  let o := SW.record_message (SW.__init__ w 0) user_id t_check t in
  result o = true /\
  SW.users_history (after o) !! user_id = Some [t].
Proof.
  rewrite record_message_unfold. cbn zeta.
  rewrite cleanup_lookup. simpl. rewrite lookup_empty. simpl.
  split; [done|]. apply lookup_insert_eq.
Qed.

(** C8: sequence length bound.  The specification bounds the length of
    every stored deque by [max_requests].  With [max_requests = 0] the
    first [record_message] of a user on a fresh limiter is let through and
    leaves a deque of length one. *)
Theorem sw_zero_limit_stores_one :
  let self := SW.run (SW.__init__ 10 0) [SW.RecordMessage "a" 0 0] in
  SW.reachable self /\
  SW.max_requests self = 0 /\
  SW.users_history self !! "a" = Some [0].
Proof. cbn zeta. split; [apply run_reachable|]. by split. Qed.

(** So the length bound, stated for every limit, does not hold. *)
Lemma sw_length_bound_fails_for_zero_limit :
  ~ (forall self user_id q,
       SW.reachable self ->
       SW.users_history self !! user_id = Some q ->
       Z.of_nat (length q) <= SW.max_requests self).
Proof.
  intros H.
  specialize (H (SW.run (SW.__init__ 10 0) [SW.RecordMessage "a" 0 0]) "a" [0]
                (run_reachable _ _ _) eq_refl).
  vm_compute in H. by apply H.
Qed.

(** Where the limit is at least one the length bound holds in every
    reachable state, and there a denied [record_message] leaves the whole
    object as it was.  (That a denied call appends nothing holds for every
    object: [record_denied_no_append].) *)
Theorem sw_length_bound self :
  SW.reachable self ->
  1 <= SW.max_requests self ->
  (forall user_id q,
     SW.users_history self !! user_id = Some q ->
     Z.of_nat (length q) <= SW.max_requests self) /\
  (forall user_id t_check t,
     let o := SW.record_message self user_id t_check t in
     result o = false ->
     after o = self /\
     forall k x, (SW.Append k x ∉ writes o) /\ (SW.NewDeque k ∉ writes o)).
Proof.
  intros Hr Hmax. pose proof (reachable_bounded self Hr) as Hb. split.
  - intros k q Hq. apply Hb in Hq as [_ Hq]. lia.
  - intros k t1 t2 o Hden. subst o.
    rewrite (record_denied_untouched self k t1 t2 Hb Hden). simpl.
    split; [done|]. intros k' x. split; apply not_elem_of_nil.
Qed.

Lemma sw_length_bound_witness :
  Z.of_nat (length [0; 2]) <= 2 /\
  after (SW.record_message
           (SW.run (SW.__init__ 10 2)
              [SW.RecordMessage "a" 0 0; SW.RecordMessage "a" 1 2])
           "a" 3 3)
  = SW.run (SW.__init__ 10 2)
      [SW.RecordMessage "a" 0 0; SW.RecordMessage "a" 1 2].
Proof.
  pose proof (sw_length_bound
                (SW.run (SW.__init__ 10 2)
                   [SW.RecordMessage "a" 0 0; SW.RecordMessage "a" 1 2])
                (run_reachable _ _ _) ltac:(by vm_compute)) as [Hlen Hden].
  split.
  - apply (Hlen "a" [0; 2]). reflexivity.
  - apply (Hden "a" 3 3). reflexivity.
Defined.

(** The writes of [record_message].  For the sliding-window limiter in
    every reachable state, and for the throttling limiter in every state, a
    [record_message] call performs a write exactly when it returns [True];
    when it returns [False] the object after the call equals the object
    before it; and replaying the writes on the dictionary before the call
    gives the dictionary after it. *)
Theorem record_mutates_iff_admitted :
  (forall self user_id t_check t,
     SW.reachable self ->
     let o := SW.record_message self user_id t_check t in
     (writes o <> [] <-> result o = true) /\
     (result o = false -> after o = self) /\
     SW.users_history (after o) =
     SW.apply_writes (SW.users_history self) (writes o)) /\
  (forall self user_id t_check t,
     let o := TH.record_message self user_id t_check t in
     (writes o <> [] <-> result o = true) /\
     (result o = false -> after o = self) /\
     TH.last_message_time (after o) =
     TH.apply_writes (TH.last_message_time self) (writes o)).
Proof.
  split.
  - intros self k t1 t2 Hr o. pose proof (reachable_bounded self Hr) as Hb.
    split; [|split; [|apply record_writes_sound]].
    + destruct (result o) eqn:Hres.
      * split; [done|]. intros _. subst o.
        rewrite record_message_unfold in *. cbn zeta in *.
        destruct (_ !! k); [destruct (_ <? _)|]; simpl in *;
          try done; by intros [? ?]%app_eq_nil.
      * subst o. by rewrite (record_denied_untouched self k t1 t2 Hb Hres).
    + intros Hres. subst o.
      by rewrite (record_denied_untouched self k t1 t2 Hb Hres).
  - intros self k t1 t2 o.
    split; [|split; [|apply th_record_writes_sound]]; subst o;
      rewrite th_record_message_unfold;
      destruct (result (TH.can_send_message self k t1)); by simpl.
Qed.

Lemma record_mutates_iff_admitted_witness :
  after (SW.record_message
           (SW.run (SW.__init__ 10 1) [SW.RecordMessage "a" 0 0]) "a" 5 5)
  = SW.run (SW.__init__ 10 1) [SW.RecordMessage "a" 0 0].
Proof.
  apply (proj1 record_mutates_iff_admitted
           (SW.run (SW.__init__ 10 1) [SW.RecordMessage "a" 0 0]) "a" 5 5
           (run_reachable _ _ _)).
  reflexivity.
Defined.




(** C7, as the specification states it, fails: the cleanup is done for the
    user of the call only, so an entry whose whole history has aged out
    stays in the mapping through calls made for other users.  Here: window
    10, a message of "a" recorded at instant 0, [can_send_message] asked
    for "b" at instant 100. *)
Lemma sw_aged_out_entry_survives_other_users_call :
  ~ (forall self user_id now k q,
       SW.reachable self ->
       SW.users_history self !! k = Some q ->
       Forall (fun t => t < now - SW.window_size self) q ->
       SW.users_history (after (SW.can_send_message self user_id now)) !! k
       = None).
Proof.
  intros H.
  specialize (H (SW.run (SW.__init__ 10 1) [SW.RecordMessage "a" 0 0])
                "b" 100 "a" [0] (run_reachable _ _ _) eq_refl).
  assert (Forall (fun t => t < 100 - 10) [0]) as Hold
    by (repeat constructor; lia).
  specialize (H Hold). vm_compute in H. discriminate.
Qed.

Lemma step_lookup_other self c k :
  SW.call_user c <> k ->
  SW.users_history (SW.step self c) !! k = SW.users_history self !! k.
Proof.
  intros Hc. destruct c as [k' t|k' t1 t2|k' t]; simpl in *.
  - rewrite can_send_after. by apply cleanup_lookup_ne.
  - rewrite record_message_unfold. cbn zeta.
    pose proof (cleanup_lookup_ne self k' t1 k Hc) as Hne.
    destruct (SW.users_history (after (SW._cleanup_window self k' t1)) !! k');
      [destruct (_ <? _)|]; simpl; try done; by rewrite lookup_insert_ne.
  - rewrite time_until_after. by apply cleanup_lookup_ne.
Qed.

(** C7 (amended): non-empty entries and memory bound, user by user.  In
    every reachable state of the sliding-window limiter every user present
    in [users_history] has a non-empty deque; a cleanup pass never leaves
    an empty deque behind for the user it cleans.  After [_cleanup_window],
    [can_send_message] or [time_until_next_allowed] called for a user whose
    stored timestamps are all older than the window start, that user has
    no entry; after [record_message] for such a user the entry holds the
    new timestamp alone.  The entry of every other user, aged out or not,
    is left as it was by all four. *)
Theorem sw_no_empty_entries :
  (forall self user_id q,
     SW.reachable self ->
     SW.users_history self !! user_id = Some q -> q <> []) /\
  (forall self user_id now,
     SW.users_history (after (SW._cleanup_window self user_id now)) !! user_id
     <> Some []) /\
  (forall self user_id now q,
     SW.users_history self !! user_id = Some q ->
     Forall (fun t => t < now - SW.window_size self) q ->
     SW.users_history (after (SW._cleanup_window self user_id now)) !! user_id
     = None /\
     SW.users_history (after (SW.can_send_message self user_id now)) !! user_id
     = None /\
     SW.users_history (after (SW.time_until_next_allowed self user_id now)) !! user_id
     = None /\
     forall t,
       SW.users_history (after (SW.record_message self user_id now t)) !! user_id
       = Some [t]) /\
  (forall self user_id k now t,
     user_id <> k ->
     SW.users_history (after (SW._cleanup_window self user_id now)) !! k
     = SW.users_history self !! k /\
     SW.users_history (after (SW.can_send_message self user_id now)) !! k
     = SW.users_history self !! k /\
     SW.users_history (after (SW.time_until_next_allowed self user_id now)) !! k
     = SW.users_history self !! k /\
     SW.users_history (after (SW.record_message self user_id now t)) !! k
     = SW.users_history self !! k).
Proof.
  split; [|split; [|split]].
  - intros self k q Hr Hq. by apply (reachable_bounded self Hr) in Hq as [? _].
  - apply cleanup_entry_nonempty.
  - intros self k now q Hq Hold.
    assert (SW.users_history (after (SW._cleanup_window self k now)) !! k = None)
      as Hgone by (by rewrite cleanup_lookup, Hq, drop_expired_all_stale).
    rewrite can_send_after, time_until_after.
    repeat split; try done.
    intros t. rewrite record_message_unfold. cbn zeta. rewrite Hgone. simpl.
    apply lookup_insert_eq.
  - intros self user_id k now t Hne.
    pose proof (step_lookup_other self (SW.CanSend user_id now) k Hne) as H1.
    pose proof (step_lookup_other self (SW.TimeUntil user_id now) k Hne) as H2.
    pose proof (step_lookup_other self (SW.RecordMessage user_id now t) k Hne)
      as H3.
    repeat split; try done. by apply cleanup_lookup_ne.
Qed.

Lemma sw_no_empty_entries_witness :
  SW.users_history
    (after (SW.can_send_message
              (SW.run (SW.__init__ 10 2)
                 [SW.RecordMessage "a" 0 0; SW.RecordMessage "a" 3 3])
              "a" 14)) !! "a"
  = None /\
  SW.users_history
    (after (SW.can_send_message
              (SW.run (SW.__init__ 10 2)
                 [SW.RecordMessage "a" 0 0; SW.RecordMessage "a" 3 3])
              "b" 14)) !! "a"
  = SW.users_history
      (SW.run (SW.__init__ 10 2)
         [SW.RecordMessage "a" 0 0; SW.RecordMessage "a" 3 3]) !! "a".
Proof.
  split.
  - apply (proj1 (proj2 (proj2 sw_no_empty_entries))
             (SW.run (SW.__init__ 10 2)
                [SW.RecordMessage "a" 0 0; SW.RecordMessage "a" 3 3])
             "a" 14 [0; 3]).
    + reflexivity.
    + repeat constructor.
  - apply (proj2 (proj2 (proj2 sw_no_empty_entries))
             (SW.run (SW.__init__ 10 2)
                [SW.RecordMessage "a" 0 0; SW.RecordMessage "a" 3 3])
             "b" "a" 14 14).
    by vm_compute.
Defined.

(** C9: idempotence of the read-only checks.  For both limiters and every
    state, a second [can_send_message] (or [time_until_next_allowed]) call
    at the same instant returns what the first returned and leaves the
    object as the first call left it; the same holds when the two checks
    are mixed. *)
Theorem checks_idempotent :
  (forall self user_id now,
     let c1 := SW.can_send_message self user_id now in
     let t1 := SW.time_until_next_allowed self user_id now in
     (result (SW.can_send_message (after c1) user_id now) = result c1 /\
      after (SW.can_send_message (after c1) user_id now) = after c1) /\
     (result (SW.time_until_next_allowed (after t1) user_id now) = result t1 /\
      after (SW.time_until_next_allowed (after t1) user_id now) = after t1) /\
     (result (SW.time_until_next_allowed (after c1) user_id now) = result t1 /\
      after (SW.time_until_next_allowed (after c1) user_id now) = after c1) /\
     (result (SW.can_send_message (after t1) user_id now) = result c1 /\
      after (SW.can_send_message (after t1) user_id now) = after t1)) /\
  (forall self user_id now,
     let c1 := TH.can_send_message self user_id now in
     let t1 := TH.time_until_next_allowed self user_id now in
     (result (TH.can_send_message (after c1) user_id now) = result c1 /\
      after (TH.can_send_message (after c1) user_id now) = after c1) /\
     (result (TH.time_until_next_allowed (after t1) user_id now) = result t1 /\
      after (TH.time_until_next_allowed (after t1) user_id now) = after t1) /\
     (result (TH.time_until_next_allowed (after c1) user_id now) = result t1 /\
      after (TH.time_until_next_allowed (after c1) user_id now) = after c1) /\
     (result (TH.can_send_message (after t1) user_id now) = result c1 /\
      after (TH.can_send_message (after t1) user_id now) = after t1)).
Proof.
  split.
  - intros self k now c1 t1. subst c1 t1.
    rewrite !can_send_after, !time_until_after.
    rewrite !can_send_result, !time_until_result.
    pose proof (cleanup_idem self k now) as Hi. cbn zeta in Hi.
    rewrite !Hi. simpl.
    by rewrite cleanup_max_requests, cleanup_window_size.
  - intros self k now c1 t1. subst c1 t1.
    destruct (th_can_send_pure self k now) as [-> _].
    destruct (th_time_until_pure self k now) as [-> _].
    by destruct (th_can_send_pure self k now) as [-> _],
               (th_time_until_pure self k now) as [-> _].
Qed.

(** C3: non-negative wait.  For both limiters, every state, every user and
    every instant (before or after the stored timestamps),
    [time_until_next_allowed] returns a number, and that number is at
    least 0. *)
Theorem wait_nonnegative :
  (forall self user_id now,
     exists v,
       result (SW.time_until_next_allowed self user_id now) = Some v /\ 0 <= v) /\
  (forall self user_id now,
     0 <= result (TH.time_until_next_allowed self user_id now)).
Proof.
  split.
  - intros self k now.
    destruct (time_until_returns self k now) as [v Hv]. exists v. split; [done|].
    rewrite time_until_result in Hv.
    destruct (_ !! k) as [q|]; [|injection Hv as <-; lia].
    destruct (_ <? _); [injection Hv as <-; lia|].
    destruct q; [done|]. injection Hv as <-. lia.
  - intros self k now. unfold TH.time_until_next_allowed.
    destruct (_ !! k); simpl; lia.
Qed.

(** C10: wait-time upper bound.  When the configured duration is not
    negative and no stored timestamp of the user lies after the current
    instant, [time_until_next_allowed] returns at most [window_size]
    (sliding window) and at most [min_interval] (throttling). *)
Theorem wait_upper_bound :
  (forall self user_id now,
     0 <= SW.window_size self ->
     (forall q t, SW.users_history self !! user_id = Some q -> t ∈ q -> t <= now) ->
     exists v,
       result (SW.time_until_next_allowed self user_id now) = Some v /\
       v <= SW.window_size self) /\
  (forall self user_id now,
     0 <= TH.min_interval self ->
     (forall t, TH.last_message_time self !! user_id = Some t -> t <= now) ->
     result (TH.time_until_next_allowed self user_id now) <= TH.min_interval self).
Proof.
  split.
  - intros self k now Hw Hpast.
    destruct (time_until_returns self k now) as [v Hv]. exists v. split; [done|].
    rewrite time_until_result, cleanup_lookup in Hv.
    destruct (SW.users_history self !! k) as [q0|] eqn:Hk;
      [|injection Hv as <-; lia].
    pose proof (drop_expired_suffix (now - SW.window_size self) q0) as Hsuf.
    destruct (SW.drop_expired _ q0) as [|oldest q] eqn:Hd;
      [injection Hv as <-; lia|].
    destruct (_ <? _); injection Hv as <-; [lia|].
    assert (oldest <= now); [|lia].
    apply (Hpast q0); [done|].
    eapply elem_of_suffix; [|done]. by left.
  - intros self k now Hi Hpast. unfold TH.time_until_next_allowed.
    destruct (_ !! k) as [last|]; simpl; [|done].
    specialize (Hpast last eq_refl). lia.
Qed.

Lemma wait_upper_bound_witness :
  (exists v,
     result (SW.time_until_next_allowed
               (SW.run (SW.__init__ 10 1) [SW.RecordMessage "a" 0 0]) "a" 5)
     = Some v /\ v <= 10) /\
  result (TH.time_until_next_allowed
            (TH.run (TH.__init__ 10) [TH.RecordMessage "a" 0 0]) "a" 9)
  <= 10.
Proof.
  split.
  - apply (proj1 wait_upper_bound
             (SW.run (SW.__init__ 10 1) [SW.RecordMessage "a" 0 0]) "a" 5).
    + by vm_compute.
    + intros q t Hq. vm_compute in Hq. injection Hq as <-.
      intros ->%list_elem_of_singleton. lia.
  - apply (proj2 wait_upper_bound
             (TH.run (TH.__init__ 10) [TH.RecordMessage "a" 0 0]) "a" 9).
    + by vm_compute.
    + intros t Ht. vm_compute in Ht. injection Ht as <-. lia.
Defined.

(** C2: throttling, spacing.  In every run of the throttling limiter made
    with a non-decreasing clock, any two [record_message] calls for one
    user that both return [True] store instants that lie at least
    [min_interval] apart. *)
Theorem th_admitted_spacing interval calls user_id (i j : nat) ti tj :
  nondecreasing (TH.clock calls) ->
  (i < j)%nat ->
  TH.admitted user_id (TH.__init__ interval) calls !! i = Some ti ->
  TH.admitted user_id (TH.__init__ interval) calls !! j = Some tj ->
  interval <= tj - ti.
Proof.
  intros Hnd Hij Hi Hj.
  pose proof (admitted_spaced user_id calls (TH.__init__ interval) Hnd) as Hs.
  by apply (StronglySorted_lookup _ _ Hs i j ti tj).
Qed.

Lemma th_admitted_spacing_witness : 10 <= 26 - 10.
Proof.
  apply (th_admitted_spacing 10
           [TH.RecordMessage "a" 0 0; TH.RecordMessage "a" 9 9;
            TH.RecordMessage "a" 10 10; TH.RecordMessage "b" 11 11;
            TH.TimeUntil "a" 12; TH.RecordMessage "a" 25 26]
           "a" 1 2 10 26).
  - cbn [nondecreasing TH.clock TH.clock_reads map concat app]. lia.
  - lia.
  - reflexivity.
  - reflexivity.
Defined.

(** * Further properties of the two classes *)

(** ** Non-decreasing clocks *)

Lemma nondecreasing_StronglySorted l :
  nondecreasing l <-> StronglySorted Z.le l.
Proof.
  induction l as [|x l IH]; [by split; [constructor|]|]. split.
  - intros Hnd. constructor.
    + apply IH. by eapply nondecreasing_tail.
    + by apply nondecreasing_lower_bound.
  - intros [Hx Hl]%StronglySorted_cons. apply IH in Hl.
    destruct l as [|y l]; [done|]. apply nondecreasing_cons2. split; [|done].
    by apply Forall_cons in Hx as [? _].
Qed.

Lemma nondecreasing_app l1 l2 :
  nondecreasing (l1 ++ l2) <->
  (forall x y, x ∈ l1 -> y ∈ l2 -> x <= y) /\
  nondecreasing l1 /\ nondecreasing l2.
Proof. rewrite !nondecreasing_StronglySorted. apply StronglySorted_app. Qed.

(** ** Runs of the sliding-window limiter *)

Section SlidingWindowRuns.
Import SlidingWindow.

Lemma sw_run_snoc self calls c :
  run self (calls ++ [c]) = step (run self calls) c.
Proof. unfold run. by rewrite fold_left_app. Qed.

Lemma sw_clock_snoc calls c :
  clock (calls ++ [c]) = clock calls ++ clock_reads c.
Proof. unfold clock. rewrite map_app, concat_app. simpl. by rewrite app_nil_r. Qed.

Lemma sw_admitted_snoc k calls c : forall self,
  admitted k self (calls ++ [c]) =
  admitted k self calls ++
  match c with
  | RecordMessage k' t1 t2 =>
      if bool_decide (k' = k)
         && result (record_message (run self calls) k' t1 t2)
      then [t2] else []
  | _ => []
  end.
Proof.
  induction calls as [|c0 calls IH]; intros self.
  - done.
  - cbn [app admitted]. rewrite IH. cbn [run fold_left].
    destruct c0; try done. by destruct (_ && _).
Qed.

Lemma history_of_cleanup self k now :
  history_of (after (_cleanup_window self k now)) k =
  drop_expired (now - window_size self) (history_of self k).
Proof.
  unfold history_of. rewrite cleanup_lookup.
  destruct (users_history self !! k) as [q|]; [|done]. simpl.
  by destruct (drop_expired _ q).
Qed.

Lemma drop_expired_split ws q :
  exists expired,
    q = expired ++ drop_expired ws q /\ Forall (fun t => t < ws) expired.
Proof.
  induction q as [|x q (expired & Hq & Hexp)]; simpl.
  - by exists [].
  - destruct (x <? ws) eqn:E.
    + exists (x :: expired). split; [by rewrite Hq at 1|].
      constructor; [lia|done].
    + by exists [].
Qed.

(** The deque of [k] after one call, in terms of the deque before it. *)
Lemma history_of_step self c k :
  history_of (step self c) k =
  if bool_decide (call_user c = k) then
    match c with
    | CanSend _ t | TimeUntil _ t =>
        drop_expired (t - window_size self) (history_of self k)
    | RecordMessage _ t1 t2 =>
        let q := drop_expired (t1 - window_size self) (history_of self k) in
        if result (record_message self k t1 t2) then q ++ [t2] else q
    end
  else history_of self k.
Proof.
  case_bool_decide as Hk.
  - subst k. destruct c as [k t|k t1 t2|k t]; simpl.
    + by rewrite can_send_after, history_of_cleanup.
    + rewrite <- history_of_cleanup. rewrite record_message_unfold.
      cbn zeta. unfold history_of.
      destruct (users_history (after (_cleanup_window self k t1)) !! k) eqn:E;
        [destruct (_ <? _)|]; simpl; rewrite ?lookup_insert_eq, ?E; done.
    + by rewrite time_until_after, history_of_cleanup.
  - unfold history_of. f_equal.
    destruct c as [k' t|k' t1 t2|k' t]; simpl in *.
    + rewrite can_send_after. by apply cleanup_lookup_ne.
    + rewrite record_message_unfold. cbn zeta.
      pose proof (cleanup_lookup_ne self k' t1 k Hk) as Hc.
      destruct (users_history (after (_cleanup_window self k' t1)) !! k');
        [destruct (_ <? _)|]; simpl; try done; by rewrite lookup_insert_ne.
    + rewrite time_until_after. by apply cleanup_lookup_ne.
Qed.

Lemma history_of_init w n k : history_of (__init__ w n) k = [].
Proof. unfold history_of. simpl. by rewrite lookup_empty. Qed.

Lemma burst_run self calls : burst (run self calls) = burst self.
Proof. unfold burst. by destruct (run_config self calls) as [_ ->]. Qed.

(** An admitted call found fewer than [burst] timestamps after its cleanup. *)
Lemma record_admitted_room self k t1 t2 :
  result (record_message self k t1 t2) = true ->
  (length (drop_expired (t1 - window_size self) (history_of self k))
   < burst self)%nat.
Proof.
  rewrite <- history_of_cleanup. rewrite record_message_unfold. cbn zeta.
  unfold history_of, burst.
  destruct (users_history (after (_cleanup_window self k t1)) !! k) as [q|];
    simpl; [|lia].
  destruct (_ <? _) eqn:Hlt; [|done]. apply Z.ltb_lt in Hlt. lia.
Qed.

(** The invariant behind the rate limit: the admitted instants of a user
    are the expired ones followed by the stored deque, every expired one
    lies more than a window before some clock read, and any [burst + 1]
    consecutive admitted instants span more than a window. *)
Lemma sw_run_invariant w n k calls :
  nondecreasing (clock calls) ->
  let self := run (__init__ w n) calls in
  let adm := admitted k (__init__ w n) calls in
  exists expired,
    adm = expired ++ history_of self k /\
    Forall (fun p => exists r, r ∈ clock calls /\ p < r - w) expired /\
    forall (i : nat) a b,
      adm !! i = Some a ->
      adm !! (i + burst (__init__ w n))%nat = Some b ->
      w < b - a.
Proof.
  induction calls as [|c calls IH] using rev_ind; intros Hnd; cbn zeta.
  - exists []. change (run (__init__ w n) []) with (__init__ w n).
    rewrite history_of_init. by repeat split.
  - rewrite sw_clock_snoc in Hnd |- *.
    apply nondecreasing_app in Hnd as (Hcross & Hnd1 & Hnd2).
    destruct (IH Hnd1) as (expired & Hadm & Hexp & Hsp). clear IH.
    rewrite sw_run_snoc, sw_admitted_snoc, history_of_step.
    set (self := run (__init__ w n) calls) in *.
    set (adm := admitted k (__init__ w n) calls) in *.
    assert (window_size self = w) as Hw
      by exact (proj1 (run_config (__init__ w n) calls)).
    assert (burst self = burst (__init__ w n)) as Hb by apply burst_run.
    assert (Forall (fun p => exists r, r ∈ clock calls ++ clock_reads c /\ p < r - w)
                   expired) as Hexp'.
    { eapply Forall_impl; [done|]. intros p (r & Hr & Hp).
      exists r. split; [by apply elem_of_app; left | done]. }
    rewrite Hw.
    case_bool_decide as Hk.
    + (* a call for [k] *)
      assert (forall t, t ∈ clock_reads c ->
                exists expired',
                  adm = expired' ++ drop_expired (t - w) (history_of self k) /\
                  Forall (fun p => exists r, r ∈ clock calls ++ clock_reads c
                                             /\ p < r - w) expired') as Hclean.
      { intros t Ht.
        destruct (drop_expired_split (t - w) (history_of self k))
          as (e & Hq & He).
        exists (expired ++ e). split.
        - rewrite <- app_assoc, <- Hq. done.
        - apply Forall_app. split; [done|].
          eapply Forall_impl; [done|]. intros p Hp.
          exists t. split; [by apply elem_of_app; right | done]. }
      destruct c as [k' t|k' t1 t2|k' t]; simpl in Hk; subst k'.
      * destruct (Hclean t) as (e & He1 & He2); [by left|].
        exists e. rewrite app_nil_r. by repeat split.
      * rewrite bool_decide_eq_true_2 by done. cbn [andb].
        destruct (Hclean t1) as (e & He1 & He2); [by left|].
        destruct (result (record_message self k t1 t2)) eqn:Hres.
        -- exists e. split; [by rewrite He1, <- app_assoc|]. split; [done|].
           intros i a b Ha Hb'.
           apply record_admitted_room in Hres. rewrite Hw, Hb in Hres.
           destruct (decide (i + burst (__init__ w n) < length adm)%nat) as [Hlt|Hge].
           ++ rewrite lookup_app_l in Ha by lia.
              rewrite lookup_app_l in Hb' by done. by eapply Hsp.
           ++ pose proof (lookup_lt_Some _ _ _ Hb') as Hlen.
              rewrite length_app in Hlen. simpl in Hlen.
              assert (burst (__init__ w n) >= 1)%nat by (unfold burst; lia).
              rewrite lookup_app_r in Hb' by lia.
              replace (i + burst (__init__ w n) - length adm)%nat with 0%nat
                in Hb' by lia.
              injection Hb' as <-.
              rewrite lookup_app_l in Ha by lia.
              assert (length adm = length e + length (drop_expired (t1 - w) (history_of self k)))%nat
                as Hl by (by rewrite He1 at 1; rewrite length_app).
              rewrite He1 in Ha. rewrite lookup_app_l in Ha by lia.
              rewrite Forall_forall in He2.
              destruct (He2 a) as (r & Hr & Ha'); [by eapply list_elem_of_lookup_2|].
              assert (r <= t2); [|lia].
              assert (t1 <= t2) by (by destruct Hnd2).
              apply elem_of_app in Hr as [Hr|Hr].
              ** assert (r <= t1); [|lia]. apply Hcross; [done|by left].
              ** simpl in Hr. apply elem_of_cons in Hr as [->|Hr]; [done|].
                 by apply list_elem_of_singleton in Hr as ->.
        -- exists e. rewrite app_nil_r. by repeat split.
      * destruct (Hclean t) as (e & He1 & He2); [by left|].
        exists e. rewrite app_nil_r. by repeat split.
    + (* a call for another user *)
      exists expired.
      replace (match c with
               | RecordMessage k' _ t2 =>
                   if bool_decide (k' = k) && result (record_message self k' _ t2)
                   then [t2] else []
               | _ => []
               end) with (@nil Z).
      * rewrite app_nil_r. by repeat split.
      * destruct c as [| k' ? ?|]; try done. simpl in Hk.
        by rewrite bool_decide_eq_false_2.
Qed.

Lemma sw_history_suffix w n k calls :
  history_of (run (__init__ w n) calls) k
  `suffix_of` admitted k (__init__ w n) calls.
Proof.
  induction calls as [|c calls IH] using rev_ind.
  - change (run (__init__ w n) []) with (__init__ w n).
    by rewrite history_of_init.
  - rewrite sw_run_snoc, sw_admitted_snoc, history_of_step.
    set (self := run (__init__ w n) calls) in *.
    pose proof (fun ws => drop_expired_suffix ws (history_of self k)) as Hd.
    case_bool_decide as Hk.
    + destruct c as [k' t|k' t1 t2|k' t]; simpl in Hk; subst k'.
      * rewrite app_nil_r. by etrans; [apply Hd|].
      * rewrite bool_decide_eq_true_2 by done. cbn [andb]. cbn zeta.
        destruct (result _).
        -- apply suffix_app. by etrans; [apply Hd|].
        -- rewrite app_nil_r. by etrans; [apply Hd|].
      * rewrite app_nil_r. by etrans; [apply Hd|].
    + destruct c as [| k' ? ?|]; rewrite ?app_nil_r; try done.
      simpl in Hk. rewrite bool_decide_eq_false_2 by done.
      by rewrite app_nil_r.
Qed.

Lemma sw_clock_cons c calls : clock (c :: calls) = clock_reads c ++ clock calls.
Proof. done. Qed.

Lemma sw_admitted_in_clock k calls : forall self a,
  a ∈ admitted k self calls -> a ∈ clock calls.
Proof.
  induction calls as [|c calls IH]; intros self a; [done|].
  rewrite sw_clock_cons. cbn [admitted].
  destruct c as [k' t|k' t1 t2|k' t]; cbn [clock_reads app].
  - intros ?%IH. by right.
  - destruct (_ && _).
    + intros [->|?%IH]%elem_of_cons; [right; left | by do 2 right].
    + intros ?%IH. by do 2 right.
  - intros ?%IH. by right.
Qed.

Lemma sw_admitted_sorted k calls : forall self,
  nondecreasing (clock calls) ->
  StronglySorted Z.le (admitted k self calls).
Proof.
  induction calls as [|c calls IH]; intros self Hnd; [constructor|].
  rewrite sw_clock_cons in Hnd.
  apply nondecreasing_app in Hnd as (Hcross & Hc & Hnd).
  specialize (IH (step self c) Hnd). cbn [admitted].
  destruct c as [k' t|k' t1 t2|k' t]; try done.
  destruct (_ && _); [|done].
  constructor; [done|]. apply Forall_forall.
  intros a Ha%sw_admitted_in_clock. apply Hcross; [|done].
  simpl. right. by left.
Qed.

(** On a sorted deque the cleanup loop keeps exactly the timestamps that
    are not older than the window start. *)
Lemma drop_expired_sorted ws q :
  StronglySorted Z.le q ->
  drop_expired ws q = filter (fun t => ws <= t) q.
Proof.
  induction 1 as [|x q Hq IH Hx]; [done|]. simpl.
  destruct (x <? ws) eqn:E.
  - rewrite filter_cons_False by lia. done.
  - rewrite filter_cons_True by lia. f_equal.
    clear IH Hq. induction Hx as [|y q Hy Hx IH]; [done|].
    rewrite filter_cons_True by lia. by f_equal.
Qed.

(** ** Decisions in terms of the stored deque *)

Lemma can_send_result_history self k now :
  result (can_send_message self k now) =
  match drop_expired (now - window_size self) (history_of self k) with
  | [] => true
  | q => Z.of_nat (length q) <? max_requests self
  end.
Proof.
  rewrite can_send_result, cleanup_lookup. unfold history_of.
  destruct (users_history self !! k) as [q|]; [|done]. simpl.
  by destruct (drop_expired _ q).
Qed.

Lemma time_until_result_history self k now :
  result (time_until_next_allowed self k now) =
  match drop_expired (now - window_size self) (history_of self k) with
  | [] => Some 0
  | oldest :: q =>
      if Z.of_nat (length (oldest :: q)) <? max_requests self then Some 0
      else Some (Z.max 0 (window_size self - (now - oldest)))
  end.
Proof.
  rewrite time_until_result, cleanup_lookup. unfold history_of.
  destruct (users_history self !! k) as [q|]; [|done]. simpl.
  by destruct (drop_expired _ q).
Qed.

Lemma record_result_history self k t1 t2 :
  result (record_message self k t1 t2) = result (can_send_message self k t1).
Proof.
  rewrite record_message_unfold, can_send_result. cbn zeta.
  destruct (_ !! k); [|done]. by destruct (_ <? _).
Qed.

Lemma drop_expired_later ws ws' q :
  ws <= ws' ->
  drop_expired ws' (drop_expired ws q) = drop_expired ws' q.
Proof.
  intros Hle. induction q as [|x q IH]; [done|]. simpl.
  destruct (x <? ws) eqn:E.
  - rewrite IH. by replace (x <? ws') with true by (symmetry; apply Z.ltb_lt; lia).
  - done.
Qed.

Lemma drop_expired_keeps ws ws' q x r :
  drop_expired ws q = x :: r -> ws' <= x ->
  (x :: r) `suffix_of` drop_expired ws' q.
Proof.
  intros Hd Hx. induction q as [|y q IH]; [done|]. simpl in *.
  destruct (y <? ws) eqn:E.
  - specialize (IH Hd). destruct (y <? ws'); [done|].
    apply suffix_cons_r. etrans; [done|]. apply drop_expired_suffix.
  - injection Hd as -> ->.
    by replace (x <? ws') with false by (symmetry; apply Z.ltb_ge; lia).
Qed.

Lemma bounded_history_of self k :
  bounded self ->
  Z.of_nat (length (history_of self k)) <= Z.max 1 (max_requests self).
Proof.
  intros Hb. unfold history_of.
  destruct (users_history self !! k) as [q|] eqn:Hq; simpl; [|lia].
  by apply Hb in Hq as [_ ?].
Qed.

(** Waiting longer than the returned time is enough. *)
Lemma sw_wait_sufficient self k now now' w :
  bounded self ->
  result (time_until_next_allowed self k now) = Some w ->
  now + w < now' ->
  result (can_send_message self k now') = true.
Proof.
  intros Hb. rewrite time_until_result_history, can_send_result_history.
  set (W := window_size self). set (q := history_of self k).
  pose proof (bounded_history_of self k Hb) as Hlen. fold q in Hlen.
  pose proof (drop_expired_length (now - W) q) as Hl1.
  destruct (drop_expired (now - W) q) as [|x r] eqn:Hd.
  - intros [= <-] Hlt.
    rewrite <- (drop_expired_later (now - W) (now' - W)) by lia.
    by rewrite Hd.
  - pose proof (drop_expired_head _ _ _ _ Hd) as Hx.
    destruct (Z.of_nat (length (x :: r)) <? max_requests self) eqn:Hroom;
      intros [= <-] Hlt;
      rewrite <- (drop_expired_later (now - W) (now' - W)) by lia;
      rewrite Hd.
    + pose proof (drop_expired_length (now' - W) (x :: r)) as Hl2.
      destruct (drop_expired (now' - W) (x :: r)); [done|].
      apply Z.ltb_lt in Hroom. apply Z.ltb_lt. lia.
    + simpl. replace (x <? now' - W) with true
        by (symmetry; apply Z.ltb_lt; lia).
      pose proof (drop_expired_length (now' - W) r) as Hl2.
      destruct (drop_expired (now' - W) r) eqn:Hd2; [done|].
      apply Z.ltb_lt. simpl in *. lia.
Qed.

(** After a denial, waiting no longer than the returned time is not enough. *)
Lemma sw_wait_necessary self k now now' w :
  result (can_send_message self k now) = false ->
  result (time_until_next_allowed self k now) = Some w ->
  now' <= now + w ->
  result (can_send_message self k now') = false.
Proof.
  rewrite time_until_result_history, !can_send_result_history.
  set (W := window_size self). set (q := history_of self k).
  destruct (drop_expired (now - W) q) as [|x r] eqn:Hd; [done|].
  intros Hden. rewrite Hden. intros [= <-] Hle.
  pose proof (drop_expired_head _ _ _ _ Hd) as Hx.
  assert (now' - W <= x) as Hx' by lia.
  pose proof (drop_expired_keeps _ _ _ _ _ Hd Hx') as Hsuf.
  apply suffix_length in Hsuf.
  destruct (drop_expired (now' - W) q); [simpl in Hsuf; lia|].
  apply Z.ltb_ge in Hden. apply Z.ltb_ge. lia.
Qed.

End SlidingWindowRuns.

(** ** Runs of the throttling limiter *)

Section ThrottlingRuns.
Import Throttling.

Lemma th_run_snoc self calls c :
  run self (calls ++ [c]) = step (run self calls) c.
Proof. unfold run. by rewrite fold_left_app. Qed.

Lemma th_clock_snoc calls c :
  clock (calls ++ [c]) = clock calls ++ clock_reads c.
Proof. unfold clock. rewrite map_app, concat_app. simpl. by rewrite app_nil_r. Qed.

Lemma th_admitted_snoc k calls c : forall self,
  admitted k self (calls ++ [c]) =
  admitted k self calls ++
  match c with
  | RecordMessage k' t1 t2 =>
      if bool_decide (k' = k)
         && result (record_message (run self calls) k' t1 t2)
      then [t2] else []
  | _ => []
  end.
Proof.
  induction calls as [|c0 calls IH]; intros self; [done|].
  cbn [app admitted]. rewrite IH. cbn [run fold_left].
  destruct c0; try done. by destruct (_ && _).
Qed.

Lemma th_run_min_interval self calls :
  min_interval (run self calls) = min_interval self.
Proof.
  revert self. induction calls as [|c calls IH]; intros self; [done|].
  simpl. rewrite IH. apply th_step_min_interval.
Qed.

(** The stored instant of a user is the latest admitted one. *)
Lemma th_last_is_latest interval k calls :
  last_message_time (run (__init__ interval) calls) !! k =
  last (admitted k (__init__ interval) calls).
Proof.
  induction calls as [|c calls IH] using rev_ind; [done|].
  rewrite th_run_snoc, th_admitted_snoc, th_step_lookup, IH.
  destruct c as [k' t|k' t1 t2|k' t]; rewrite ?app_nil_r; try done.
  destruct (_ && _); [by rewrite last_snoc | by rewrite app_nil_r].
Qed.

(** The three results depend on the user's stored instant and on the
    interval only. *)
Lemma th_results_local self1 self2 k :
  min_interval self1 = min_interval self2 ->
  last_message_time self1 !! k = last_message_time self2 !! k ->
  (forall now,
     result (can_send_message self1 k now) = result (can_send_message self2 k now)) /\
  (forall now,
     result (time_until_next_allowed self1 k now) =
     result (time_until_next_allowed self2 k now)) /\
  (forall t1 t2,
     result (record_message self1 k t1 t2) = result (record_message self2 k t1 t2)).
Proof.
  intros Hi Hl.
  assert (forall now,
            result (can_send_message self1 k now) =
            result (can_send_message self2 k now)) as Hcan.
  { intros now. unfold can_send_message. rewrite Hl, Hi.
    by destruct (last_message_time self2 !! k). }
  split; [done|]. split.
  - intros now. unfold time_until_next_allowed. rewrite Hl, Hi.
    by destruct (last_message_time self2 !! k).
  - intros t1 t2. by rewrite !record_result.
Qed.

Lemma th_run_lookup_other k calls : forall self,
  Forall (fun c => call_user c <> k) calls ->
  last_message_time (run self calls) !! k = last_message_time self !! k.
Proof.
  induction calls as [|c calls IH]; intros self Hcalls; [done|].
  apply Forall_cons in Hcalls as [Hc Hcalls]. simpl.
  rewrite IH by done. rewrite th_step_lookup.
  destruct c as [| k' ? ?|]; try done. simpl in Hc.
  by rewrite bool_decide_eq_false_2.
Qed.

End ThrottlingRuns.

(** ** The rate limit, the stored history and the wait time *)

(** X1: the sliding-window rate limit.  In a run with a non-decreasing
    clock, any [burst + 1] consecutive admitted events of one user span
    more than [window_size], where [burst] is [max_requests] (one if
    [max_requests] is below one): an admitted event and the [burst]-th
    admitted event after it are more than a window apart. *)
Theorem sw_window_rate_limit w n calls user_id (i : nat) a b :
  nondecreasing (SW.clock calls) ->
  SW.admitted user_id (SW.__init__ w n) calls !! i = Some a ->
  SW.admitted user_id (SW.__init__ w n) calls
    !! (i + SW.burst (SW.__init__ w n))%nat = Some b ->
  w < b - a.
Proof.
  intros Hnd Ha Hb.
  destruct (sw_run_invariant w n user_id calls Hnd) as (_ & _ & _ & Hsp).
  by eapply Hsp.
Qed.

Lemma sw_window_rate_limit_witness : 10 < 11 - 0.
Proof.
  apply (sw_window_rate_limit 10 2
           [SW.RecordMessage "a" 0 0; SW.RecordMessage "a" 1 2;
            SW.RecordMessage "a" 3 3; SW.CanSend "b" 5;
            SW.RecordMessage "a" 11 11; SW.RecordMessage "a" 12 13;
            SW.RecordMessage "a" 13 13]
           "a" 0 0 11).
  - cbn [nondecreasing SW.clock SW.clock_reads map concat app]. lia.
  - reflexivity.
  - reflexivity.
Defined.

(** X2: what is stored.  After any run from a fresh sliding-window limiter
    the deque of a user is a suffix of that user's admitted instants: only
    admitted instants are stored, in the order of admission, and only the
    oldest ones are ever dropped. *)
Theorem sw_stored_suffix_of_admitted w n calls user_id :
  SW.history_of (SW.run (SW.__init__ w n) calls) user_id
  `suffix_of` SW.admitted user_id (SW.__init__ w n) calls.
Proof. apply sw_history_suffix. Qed.

(** X3: stored timestamps are ordered.  In a run with a non-decreasing
    clock every deque is non-decreasing, oldest first, and each of its
    timestamps is one of the clock reads of the run. *)
Theorem sw_history_sorted w n calls user_id q :
  nondecreasing (SW.clock calls) ->
  SW.users_history (SW.run (SW.__init__ w n) calls) !! user_id = Some q ->
  nondecreasing q /\ forall t, t ∈ q -> t ∈ SW.clock calls.
Proof.
  intros Hnd Hq.
  destruct (sw_history_suffix w n user_id calls) as [expired Hsuf].
  unfold SW.history_of in Hsuf. rewrite Hq in Hsuf. simpl in Hsuf.
  pose proof (sw_admitted_sorted user_id calls (SW.__init__ w n) Hnd) as Hs.
  rewrite Hsuf in Hs. apply StronglySorted_app in Hs as (_ & _ & Hs).
  split; [by apply nondecreasing_StronglySorted|].
  intros t Ht. apply (sw_admitted_in_clock user_id calls (SW.__init__ w n)).
  rewrite Hsuf. apply elem_of_app. by right.
Qed.

Lemma sw_history_sorted_witness :
  nondecreasing [2; 11] /\
  forall t, t ∈ [2; 11] ->
    t ∈ SW.clock [SW.RecordMessage "a" 0 0; SW.RecordMessage "a" 1 2;
                  SW.RecordMessage "a" 11 11].
Proof.
  apply (sw_history_sorted 10 2
           [SW.RecordMessage "a" 0 0; SW.RecordMessage "a" 1 2;
            SW.RecordMessage "a" 11 11] "a" [2; 11]).
  - cbn [nondecreasing SW.clock SW.clock_reads map concat app]. lia.
  - reflexivity.
Defined.

(** X4: the cleanup is exact.  In a run with a non-decreasing clock, a
    [can_send_message] or [time_until_next_allowed] call at any instant
    [now] leaves for its user exactly the stored timestamps that are not
    older than [now - window_size]: none of them survives by hiding behind
    a newer one. *)
Theorem sw_cleanup_exact w n calls user_id now :
  nondecreasing (SW.clock calls) ->
  let self := SW.run (SW.__init__ w n) calls in
  SW.history_of (after (SW.can_send_message self user_id now)) user_id
  = filter (fun t => now - w <= t) (SW.history_of self user_id) /\
  SW.history_of (after (SW.time_until_next_allowed self user_id now)) user_id
  = filter (fun t => now - w <= t) (SW.history_of self user_id).
Proof.
  intros Hnd self.
  rewrite can_send_after, time_until_after, history_of_cleanup.
  replace (SW.window_size self) with w
    by (symmetry; exact (proj1 (run_config (SW.__init__ w n) calls))).
  assert (StronglySorted Z.le (SW.history_of self user_id)) as Hs.
  { destruct (sw_history_suffix w n user_id calls) as [expired Hsuf].
    pose proof (sw_admitted_sorted user_id calls (SW.__init__ w n) Hnd) as Hs.
    rewrite Hsuf in Hs. by apply StronglySorted_app in Hs as (_ & _ & Hs). }
  by rewrite drop_expired_sorted.
Qed.

Lemma sw_cleanup_exact_witness :
  SW.history_of
    (after (SW.can_send_message
              (SW.run (SW.__init__ 10 3)
                 [SW.RecordMessage "a" 0 0; SW.RecordMessage "a" 4 4;
                  SW.RecordMessage "a" 9 9])
              "a" 14)) "a"
  = filter (fun t => 14 - 10 <= t)
      (SW.history_of
         (SW.run (SW.__init__ 10 3)
            [SW.RecordMessage "a" 0 0; SW.RecordMessage "a" 4 4;
             SW.RecordMessage "a" 9 9]) "a").
Proof.
  apply (sw_cleanup_exact 10 3
           [SW.RecordMessage "a" 0 0; SW.RecordMessage "a" 4 4;
            SW.RecordMessage "a" 9 9] "a" 14).
  cbn [nondecreasing SW.clock SW.clock_reads map concat app]. lia.
Defined.

(** X5: the sliding-window wait time is exact.  In a reachable state, when
    [time_until_next_allowed] returns [w] at instant [now], then
    [can_send_message] returns [True] at every instant later than
    [now + w]; and if [can_send_message] returns [False] at [now], it
    returns [False] at every instant up to and including [now + w]. *)
Theorem sw_wait_exact self user_id now now' w :
  SW.reachable self ->
  result (SW.time_until_next_allowed self user_id now) = Some w ->
  (now + w < now' ->
   result (SW.can_send_message self user_id now') = true) /\
  (result (SW.can_send_message self user_id now) = false ->
   now' <= now + w ->
   result (SW.can_send_message self user_id now') = false).
Proof.
  intros Hr Hw. split.
  - apply sw_wait_sufficient; [by apply reachable_bounded | done].
  - intros Hden. by apply sw_wait_necessary.
Qed.

Lemma sw_wait_exact_witness :
  result (SW.can_send_message
            (SW.run (SW.__init__ 10 1) [SW.RecordMessage "a" 0 0]) "a" 11)
  = true.
Proof.
  apply (sw_wait_exact
           (SW.run (SW.__init__ 10 1) [SW.RecordMessage "a" 0 0])
           "a" 4 11 6).
  - apply run_reachable.
  - reflexivity.
  - lia.
Defined.

(** X6: the throttling wait time is exact.  For every state, with [w] the
    value [time_until_next_allowed] returns at instant [now],
    [can_send_message] returns [True] at every instant from [now + w] on;
    and if it returns [False] at [now], it returns [False] at every instant
    before [now + w]. *)
Theorem th_wait_exact self user_id now now' :
  let w := result (TH.time_until_next_allowed self user_id now) in
  (now + w <= now' ->
   result (TH.can_send_message self user_id now') = true) /\
  (result (TH.can_send_message self user_id now) = false ->
   now' < now + w ->
   result (TH.can_send_message self user_id now') = false).
Proof.
  unfold TH.time_until_next_allowed, TH.can_send_message.
  destruct (TH.last_message_time self !! user_id) as [last|]; simpl; [|done].
  split.
  - intros Hle. apply Z.leb_le. lia.
  - intros Hden%Z.leb_gt Hlt. apply Z.leb_gt. lia.
Qed.

Lemma th_wait_exact_witness :
  result (TH.can_send_message
            (TH.run (TH.__init__ 10) [TH.RecordMessage "a" 0 0]) "a" 10)
  = true /\
  result (TH.can_send_message
            (TH.run (TH.__init__ 10) [TH.RecordMessage "a" 0 0]) "a" 9)
  = false.
Proof.
  split.
  - apply (proj1 (th_wait_exact
                    (TH.run (TH.__init__ 10) [TH.RecordMessage "a" 0 0])
                    "a" 4 10)).
    by vm_compute.
  - apply (proj2 (th_wait_exact
                    (TH.run (TH.__init__ 10) [TH.RecordMessage "a" 0 0])
                    "a" 4 9)).
    + reflexivity.
    + by vm_compute.
Defined.

(** X7: users are independent (sliding window).  Calls made for other
    users leave a user's deque untouched and change none of the results
    the three methods give for that user. *)
Theorem sw_users_independent self calls user_id :
  Forall (fun c => SW.call_user c <> user_id) calls ->
  let self' := SW.run self calls in
  SW.users_history self' !! user_id = SW.users_history self !! user_id /\
  (forall now,
     result (SW.can_send_message self' user_id now)
     = result (SW.can_send_message self user_id now)) /\
  (forall now,
     result (SW.time_until_next_allowed self' user_id now)
     = result (SW.time_until_next_allowed self user_id now)) /\
  (forall t_check t,
     result (SW.record_message self' user_id t_check t)
     = result (SW.record_message self user_id t_check t)).
Proof.
  intros Hcalls self'.
  assert (SW.users_history self' !! user_id = SW.users_history self !! user_id)
    as Hl.
  { subst self'. revert self.
    induction calls as [|c calls IH]; intros self; [done|].
    apply Forall_cons in Hcalls as [Hc Hcalls]. simpl. rewrite IH by done.
    clear IH. destruct c as [k t|k t1 t2|k t]; simpl in *.
    - rewrite can_send_after. by apply cleanup_lookup_ne.
    - rewrite record_message_unfold. cbn zeta.
      pose proof (cleanup_lookup_ne self k t1 user_id Hc) as Hne.
      destruct (SW.users_history (after (SW._cleanup_window self k t1)) !! k);
        [destruct (_ <? _)|]; simpl; try done; by rewrite lookup_insert_ne.
    - rewrite time_until_after. by apply cleanup_lookup_ne. }
  destruct (run_config self calls) as [Hw Hm]. fold self' in Hw, Hm.
  assert (SW.history_of self' user_id = SW.history_of self user_id) as Hh
    by (unfold SW.history_of; by rewrite Hl).
  split; [done|].
  assert (forall now,
            result (SW.can_send_message self' user_id now)
            = result (SW.can_send_message self user_id now)) as Hcan.
  { intros now. by rewrite !can_send_result_history, Hh, Hw, Hm. }
  split; [done|]. split.
  - intros now. by rewrite !time_until_result_history, Hh, Hw, Hm.
  - intros t1 t2. by rewrite !record_result_history.
Qed.

Lemma sw_users_independent_witness :
  SW.users_history
    (SW.run (SW.run (SW.__init__ 10 1) [SW.RecordMessage "a" 0 0])
       [SW.RecordMessage "b" 1 1; SW.CanSend "c" 50]) !! "a"
  = SW.users_history
      (SW.run (SW.__init__ 10 1) [SW.RecordMessage "a" 0 0]) !! "a".
Proof.
  apply (sw_users_independent
           (SW.run (SW.__init__ 10 1) [SW.RecordMessage "a" 0 0])
           [SW.RecordMessage "b" 1 1; SW.CanSend "c" 50] "a").
  repeat constructor; by vm_compute.
Defined.

(** X8: users are independent (throttling).  Calls made for other users
    leave a user's stored instant untouched and change none of the
    results the three methods give for that user. *)
Theorem th_users_independent self calls user_id :
  Forall (fun c => TH.call_user c <> user_id) calls ->
  let self' := TH.run self calls in
  TH.last_message_time self' !! user_id = TH.last_message_time self !! user_id /\
  (forall now,
     result (TH.can_send_message self' user_id now)
     = result (TH.can_send_message self user_id now)) /\
  (forall now,
     result (TH.time_until_next_allowed self' user_id now)
     = result (TH.time_until_next_allowed self user_id now)) /\
  (forall t_check t,
     result (TH.record_message self' user_id t_check t)
     = result (TH.record_message self user_id t_check t)).
Proof.
  intros Hcalls self'.
  pose proof (th_run_lookup_other user_id calls self Hcalls) as Hl.
  split; [done|].
  apply th_results_local; [apply th_run_min_interval | done].
Qed.

Lemma th_users_independent_witness :
  TH.last_message_time
    (TH.run (TH.run (TH.__init__ 10) [TH.RecordMessage "a" 0 0])
       [TH.RecordMessage "b" 1 1; TH.CanSend "c" 50]) !! "a"
  = TH.last_message_time
      (TH.run (TH.__init__ 10) [TH.RecordMessage "a" 0 0]) !! "a".
Proof.
  apply (th_users_independent
           (TH.run (TH.__init__ 10) [TH.RecordMessage "a" 0 0])
           [TH.RecordMessage "b" 1 1; TH.CanSend "c" 50] "a").
  repeat constructor; by vm_compute.
Defined.

(** X9: what the throttling limiter stores.  After any run from a fresh
    limiter the stored instant of a user is the instant of the latest
    admitted [record_message] for that user, and a user has no entry
    exactly when none was admitted: entries are never removed. *)
Theorem th_stored_is_latest_admitted interval calls user_id :
  TH.last_message_time (TH.run (TH.__init__ interval) calls) !! user_id
  = last (TH.admitted user_id (TH.__init__ interval) calls).
Proof. apply th_last_is_latest. Qed.

(** X10: the checks only remove.  [can_send_message] and
    [time_until_next_allowed] of the sliding-window limiter never add a
    user or a timestamp: every deque present after the call was present
    before it, and is a suffix of what it was. *)
Theorem sw_checks_only_remove self user_id now k q' :
  SW.users_history (after (SW.can_send_message self user_id now)) !! k = Some q'
  \/ SW.users_history (after (SW.time_until_next_allowed self user_id now)) !! k
     = Some q' ->
  exists q, SW.users_history self !! k = Some q /\ q' `suffix_of` q.
Proof.
  rewrite can_send_after, time_until_after. intros Hq.
  assert (SW.users_history (after (SW._cleanup_window self user_id now)) !! k
          = Some q') as Hq' by (by destruct Hq).
  clear Hq. destruct (decide (user_id = k)) as [->|Hne].
  - rewrite cleanup_lookup in Hq'.
    destruct (SW.users_history self !! k) as [q|]; [|done].
    exists q. split; [done|].
    pose proof (drop_expired_suffix (now - SW.window_size self) q) as Hsuf.
    destruct (SW.drop_expired _ q); [done|]. by injection Hq' as <-.
  - rewrite cleanup_lookup_ne in Hq' by done. by exists q'.
Qed.

Lemma sw_checks_only_remove_witness :
  exists q,
    SW.users_history
      (SW.run (SW.__init__ 10 2)
         [SW.RecordMessage "a" 0 0; SW.RecordMessage "a" 5 5]) !! "a" = Some q
    /\ [5] `suffix_of` q.
Proof.
  apply (sw_checks_only_remove
           (SW.run (SW.__init__ 10 2)
              [SW.RecordMessage "a" 0 0; SW.RecordMessage "a" 5 5])
           "a" 12 "a" [5]).
  left. reflexivity.
Defined.

(** X11: a non-positive interval never throttles.  With [min_interval <= 0]
    and a non-decreasing clock every [record_message] call is admitted. *)
Theorem th_nonpositive_interval_admits_all interval calls user_id :
  interval <= 0 ->
  nondecreasing (TH.clock calls) ->
  TH.admitted user_id (TH.__init__ interval) calls = TH.recorded user_id calls.
Proof.
  intros Hi. induction calls as [|c calls IH] using rev_ind; intros Hnd; [done|].
  rewrite th_clock_snoc in Hnd.
  apply nondecreasing_app in Hnd as (Hcross & Hnd & Hc).
  unfold TH.recorded in *. rewrite th_admitted_snoc, omap_app, <- IH by done.
  f_equal. destruct c as [k t|k t1 t2|k t]; try done. simpl.
  case_bool_decide as Hk; [|done]. subst k. simpl.
  rewrite record_result. unfold TH.can_send_message.
  rewrite th_run_min_interval, th_last_is_latest. simpl.
  destruct (last _) as [l|] eqn:Hlast; simpl; [|done].
  apply last_Some_elem_of, admitted_in_clock in Hlast.
  replace (interval <=? t1 - l) with true; [done|].
  symmetry. apply Z.leb_le.
  assert (l <= t1); [|lia]. apply Hcross; [done|by left].
Qed.

Lemma th_nonpositive_interval_admits_all_witness :
  TH.admitted "a" (TH.__init__ 0)
    [TH.RecordMessage "a" 3 3; TH.RecordMessage "a" 3 3;
     TH.RecordMessage "b" 4 4; TH.RecordMessage "a" 4 5]
  = TH.recorded "a"
      [TH.RecordMessage "a" 3 3; TH.RecordMessage "a" 3 3;
       TH.RecordMessage "b" 4 4; TH.RecordMessage "a" 4 5].
Proof.
  apply (th_nonpositive_interval_admits_all 0).
  - lia.
  - cbn [nondecreasing TH.clock TH.clock_reads map concat app]. lia.
Defined.

(** ** The checks do not influence admissions *)

Section ChecksTransparent.
Import SlidingWindow.

Lemma agree_from_refl from self : agree_from from self self.
Proof. by repeat split. Qed.

Lemma agree_from_later from from' self1 self2 :
  from <= from' -> agree_from from self1 self2 -> agree_from from' self1 self2.
Proof.
  intros Hle (Hw & Hm & Hh). repeat split; [done..|].
  intros k ws Hws. apply Hh. lia.
Qed.

Lemma agree_from_results from self1 self2 k t1 t2 :
  agree_from from self1 self2 -> from <= t1 ->
  result (record_message self1 k t1 t2) = result (record_message self2 k t1 t2).
Proof.
  intros (Hw & Hm & Hh) Hle.
  rewrite !record_result_history, !can_send_result_history, Hw, Hm.
  by rewrite Hh by lia.
Qed.

(** A check on the first object keeps the two in agreement. *)
Lemma agree_from_check from self1 self2 k t :
  agree_from from self1 self2 -> from <= t ->
  agree_from t (after (_cleanup_window self1 k t)) self2.
Proof.
  intros (Hw & Hm & Hh) Hle. repeat split.
  - by rewrite cleanup_window_size.
  - by rewrite cleanup_max_requests.
  - intros k' ws Hws. destruct (decide (k = k')) as [<-|Hne].
    + rewrite history_of_cleanup, drop_expired_later by lia. apply Hh. lia.
    + unfold history_of at 1. rewrite cleanup_lookup_ne by done.
      apply Hh. lia.
Qed.

(** The same [record_message] on both objects keeps them in agreement. *)
Lemma agree_from_record from self1 self2 k t1 t2 :
  agree_from from self1 self2 -> from <= t1 -> t1 <= t2 ->
  agree_from t2 (after (record_message self1 k t1 t2))
                (after (record_message self2 k t1 t2)).
Proof.
  intros Hag Hle H12.
  pose proof (agree_from_results _ _ _ k t1 t2 Hag Hle) as Hres.
  destruct Hag as (Hw & Hm & Hh).
  pose proof (step_config self1 (RecordMessage k t1 t2)) as [Hw1 Hm1].
  pose proof (step_config self2 (RecordMessage k t1 t2)) as [Hw2 Hm2].
  simpl in Hw1, Hm1, Hw2, Hm2.
  repeat split; [congruence..|].
  intros k' ws Hws. rewrite Hw2 in Hws.
  pose proof (history_of_step self1 (RecordMessage k t1 t2) k') as H1.
  pose proof (history_of_step self2 (RecordMessage k t1 t2) k') as H2.
  simpl in H1, H2. rewrite H1, H2. clear H1 H2.
  case_bool_decide as Hk.
  - subst k'. rewrite Hres, Hw. by rewrite (Hh k (t1 - window_size self2)) by lia.
  - apply Hh. lia.
Qed.

Lemma sw_checks_transparent_from k calls : forall from self1 self2,
  agree_from from self1 self2 ->
  nondecreasing (from :: clock calls) ->
  admitted k self1 calls = admitted k self2 (records_only calls).
Proof.
  induction calls as [|c calls IH]; intros from self1 self2 Hag Hnd; [done|].
  rewrite sw_clock_cons in Hnd.
  destruct c as [k' t|k' t1 t2|k' t]; cbn [clock_reads app] in Hnd;
    cbn [admitted records_only step].
  - apply nondecreasing_cons2 in Hnd as [Hle Hnd].
    apply (IH t); [|done]. rewrite can_send_after.
    by apply (agree_from_check from).
  - apply nondecreasing_cons2 in Hnd as [Hle Hnd].
    pose proof Hnd as [H12 Hnd']%nondecreasing_cons2.
    rewrite (agree_from_results from self1 self2) by done.
    rewrite (IH t2 _ (after (record_message self2 k' t1 t2))); [done| |done].
    by apply (agree_from_record from).
  - apply nondecreasing_cons2 in Hnd as [Hle Hnd].
    apply (IH t); [|done]. rewrite time_until_after.
    by apply (agree_from_check from).
Qed.

End ChecksTransparent.

(** X12: the checks do not influence admissions.  In a run of the
    sliding-window limiter with a non-decreasing clock, the admitted
    events of every user are the same as in the run without its
    [can_send_message] and [time_until_next_allowed] calls: the cleanup
    those calls perform never changes what a later [record_message]
    decides. *)
Theorem sw_checks_transparent w n calls user_id :
  nondecreasing (SW.clock calls) ->
  SW.admitted user_id (SW.__init__ w n) calls
  = SW.admitted user_id (SW.__init__ w n) (SW.records_only calls).
Proof.
  intros Hnd. destruct calls as [|c calls]; [done|].
  assert (exists t0, nondecreasing (t0 :: SW.clock (c :: calls))) as [t0 Ht0].
  { rewrite sw_clock_cons in *.
    destruct c as [k t|k t1 t2|k t]; cbn [SW.clock_reads app] in *.
    - exists t. by apply nondecreasing_cons2.
    - exists t1. by apply nondecreasing_cons2.
    - exists t. by apply nondecreasing_cons2. }
  apply (sw_checks_transparent_from user_id (c :: calls) t0); [|done].
  apply agree_from_refl.
Qed.

Lemma sw_checks_transparent_witness :
  SW.admitted "a" (SW.__init__ 10 1)
    [SW.RecordMessage "a" 0 0; SW.CanSend "a" 5; SW.TimeUntil "a" 11;
     SW.RecordMessage "a" 11 12]
  = SW.admitted "a" (SW.__init__ 10 1)
      (SW.records_only
         [SW.RecordMessage "a" 0 0; SW.CanSend "a" 5; SW.TimeUntil "a" 11;
          SW.RecordMessage "a" 11 12]).
Proof.
  apply (sw_checks_transparent 10 1).
  cbn [nondecreasing SW.clock SW.clock_reads map concat app]. lia.
Defined.

(** X13: what the sliding-window decision counts.  In a run with a
    non-decreasing clock, [can_send_message] (and so [record_message])
    returns [True] exactly when the number of the user's stored timestamps
    inside the window ending at the instant of the call is zero or below
    [max_requests]. *)
Theorem sw_decision_counts w n calls user_id now :
  nondecreasing (SW.clock calls) ->
  let self := SW.run (SW.__init__ w n) calls in
  let count := SW.count_in_window self user_id now in
  (result (SW.can_send_message self user_id now) = true <->
   count = 0%nat \/ Z.of_nat count < n) /\
  (forall t, result (SW.record_message self user_id now t)
             = result (SW.can_send_message self user_id now)).
Proof.
  intros Hnd self count. split; [|intros t; apply record_result_history].
  destruct (run_config (SW.__init__ w n) calls) as [Hw Hm].
  fold self in Hw, Hm. simpl in Hw, Hm.
  assert (StronglySorted Z.le (SW.history_of self user_id)) as Hs.
  { destruct (sw_history_suffix w n user_id calls) as [expired Hsuf].
    pose proof (sw_admitted_sorted user_id calls (SW.__init__ w n) Hnd) as Hs.
    rewrite Hsuf in Hs. by apply StronglySorted_app in Hs as (_ & _ & Hs). }
  rewrite can_send_result_history, (drop_expired_sorted _ _ Hs), Hm.
  subst count. unfold SW.count_in_window. fold (SW.history_of self user_id).
  destruct (filter _ _) as [|x q] eqn:Hf; simpl.
  - split; [by left | done].
  - rewrite Z.ltb_lt. split; [by right|]. by intros [?|?].
Qed.

Lemma sw_decision_counts_witness :
  result (SW.can_send_message
            (SW.run (SW.__init__ 10 2)
               [SW.RecordMessage "a" 0 0; SW.RecordMessage "a" 5 5]) "a" 12)
  = true <->
  SW.count_in_window
    (SW.run (SW.__init__ 10 2)
       [SW.RecordMessage "a" 0 0; SW.RecordMessage "a" 5 5]) "a" 12 = 0%nat
  \/ Z.of_nat
       (SW.count_in_window
          (SW.run (SW.__init__ 10 2)
             [SW.RecordMessage "a" 0 0; SW.RecordMessage "a" 5 5]) "a" 12)
     < 2.
Proof.
  apply (sw_decision_counts 10 2
           [SW.RecordMessage "a" 0 0; SW.RecordMessage "a" 5 5] "a" 12).
  cbn [nondecreasing SW.clock SW.clock_reads map concat app]. lia.
Defined.

(** ** The wait time as a countdown *)

Lemma sw_wait_counts_down self k now d w :
  SW.bounded self -> 0 <= d ->
  result (SW.time_until_next_allowed self k now) = Some w ->
  result (SW.time_until_next_allowed self k (now + d)) = Some (Z.max 0 (w - d)).
Proof.
  intros Hb Hd. rewrite !time_until_result_history.
  set (W := SW.window_size self). set (q := SW.history_of self k).
  pose proof (bounded_history_of self k Hb) as Hlen. fold q in Hlen.
  pose proof (drop_expired_length (now - W) q) as Hl1.
  rewrite <- (drop_expired_later (now - W) (now + d - W) q) by lia.
  destruct (SW.drop_expired (now - W) q) as [|x r] eqn:Hq.
  - intros [= <-]. simpl. f_equal. lia.
  - pose proof (drop_expired_head _ _ _ _ Hq) as Hx.
    pose proof (drop_expired_length (now + d - W) (x :: r)) as Hl2.
    destruct (Z.of_nat (length (x :: r)) <? SW.max_requests self) eqn:Hroom;
      intros [= <-].
    + apply Z.ltb_lt in Hroom.
      destruct (SW.drop_expired (now + d - W) (x :: r)) as [|y r'];
        [f_equal; lia|].
      replace (Z.of_nat (length (y :: r')) <? SW.max_requests self) with true
        by (symmetry; apply Z.ltb_lt; lia).
      f_equal. lia.
    + apply Z.ltb_ge in Hroom. simpl.
      destruct (x <? now + d - W) eqn:Hexp.
      * apply Z.ltb_lt in Hexp.
        pose proof (drop_expired_length (now + d - W) r) as Hl3.
        destruct (SW.drop_expired (now + d - W) r) as [|y r'];
          [f_equal; lia|].
        destruct (_ <? _) eqn:E; [f_equal; lia|].
        apply Z.ltb_ge in E. simpl in *. lia.
      * apply Z.ltb_ge in Hexp.
        destruct (_ <? _) eqn:E; [|f_equal; lia].
        apply Z.ltb_lt in E. simpl in *. lia.
Qed.

(** X14: the wait counts down.  For both limiters, if
    [time_until_next_allowed] returns [w] at instant [now], then [d >= 0]
    later it returns [max(0, w - d)] on the same object (for the
    sliding-window limiter: in every reachable state). *)
Theorem wait_counts_down :
  (forall self user_id now d w,
     SW.reachable self -> 0 <= d ->
     result (SW.time_until_next_allowed self user_id now) = Some w ->
     result (SW.time_until_next_allowed self user_id (now + d))
     = Some (Z.max 0 (w - d))) /\
  (forall self user_id now d,
     0 <= d ->
     result (TH.time_until_next_allowed self user_id (now + d))
     = Z.max 0 (result (TH.time_until_next_allowed self user_id now) - d)).
Proof.
  split.
  - intros self k now d w Hr. apply sw_wait_counts_down.
    by apply reachable_bounded.
  - intros self k now d Hd. unfold TH.time_until_next_allowed.
    destruct (TH.last_message_time self !! k); simpl; lia.
Qed.

Lemma wait_counts_down_witness :
  result (SW.time_until_next_allowed
            (SW.run (SW.__init__ 10 1) [SW.RecordMessage "a" 0 0]) "a" (4 + 3))
  = Some (Z.max 0 (6 - 3)) /\
  result (TH.time_until_next_allowed
            (TH.run (TH.__init__ 10) [TH.RecordMessage "a" 0 0]) "a" (4 + 3))
  = Z.max 0
      (result (TH.time_until_next_allowed
                 (TH.run (TH.__init__ 10) [TH.RecordMessage "a" 0 0]) "a" 4)
       - 3).
Proof.
  split.
  - apply (proj1 wait_counts_down
             (SW.run (SW.__init__ 10 1) [SW.RecordMessage "a" 0 0]) "a" 4 3 6).
    + apply run_reachable.
    + lia.
    + reflexivity.
  - apply (proj2 wait_counts_down
             (TH.run (TH.__init__ 10) [TH.RecordMessage "a" 0 0]) "a" 4 3).
    lia.
Defined.

(** X15: who may send waits nothing.  For both limiters and every state,
    whenever [can_send_message] returns [True], [time_until_next_allowed]
    at the same instant on the same object returns 0. *)
Theorem admit_means_zero_wait :
  (forall self user_id now,
     result (SW.can_send_message self user_id now) = true ->
     result (SW.time_until_next_allowed self user_id now) = Some 0) /\
  (forall self user_id now,
     result (TH.can_send_message self user_id now) = true ->
     result (TH.time_until_next_allowed self user_id now) = 0).
Proof.
  split.
  - intros self k now.
    rewrite can_send_result_history, time_until_result_history.
    destruct (SW.drop_expired _ _); [done|]. by intros ->.
  - intros self k now.
    unfold TH.can_send_message, TH.time_until_next_allowed.
    destruct (TH.last_message_time self !! k); simpl; [|done].
    intros H%Z.leb_le. lia.
Qed.

Lemma admit_means_zero_wait_witness :
  result (SW.time_until_next_allowed
            (SW.run (SW.__init__ 10 2) [SW.RecordMessage "a" 0 0]) "a" 3)
  = Some 0.
Proof.
  apply (proj1 admit_means_zero_wait
           (SW.run (SW.__init__ 10 2) [SW.RecordMessage "a" 0 0]) "a" 3).
  reflexivity.
Defined.

(** ** When [record_message] changes the object *)

Lemma rotate_head {A} (d : list A) x y : x :: d = d ++ [y] -> x = y.
Proof.
  revert x. induction d as [|a d IH]; intros x; simpl.
  - by intros [= ->].
  - intros [= -> Hd]. by apply IH.
Qed.

Lemma sw_record_admitted_changes self k t1 t2 :
  0 <= SW.window_size self -> t1 <= t2 ->
  result (SW.record_message self k t1 t2) = true ->
  after (SW.record_message self k t1 t2) <> self.
Proof.
  intros Hw H12 Hres Heq.
  pose proof (history_of_step self (SW.RecordMessage k t1 t2) k) as Hstep.
  cbn [SW.step SW.call_user] in Hstep.
  rewrite bool_decide_eq_true_2 in Hstep by done. cbn zeta in Hstep.
  rewrite Hres, Heq in Hstep.
  destruct (drop_expired_split (t1 - SW.window_size self) (SW.history_of self k))
    as (expired & Hsplit & Hexp).
  set (kept := SW.drop_expired _ _) in *.
  rewrite Hsplit in Hstep at 1.
  assert (length expired = 1%nat) as Hone.
  { apply (f_equal length) in Hstep. rewrite !length_app in Hstep.
    simpl in Hstep. lia. }
  destruct expired as [|x [|? ?]]; try done.
  apply rotate_head in Hstep as ->.
  apply Forall_cons in Hexp as [Hexp _]. lia.
Qed.

Lemma th_record_admitted_changes self k t1 t2 :
  0 < TH.min_interval self -> t1 <= t2 ->
  result (TH.record_message self k t1 t2) = true ->
  after (TH.record_message self k t1 t2) <> self.
Proof.
  intros Hi H12 Hres Heq.
  pose proof (th_step_lookup self (TH.RecordMessage k t1 t2) k) as Hstep.
  cbn [TH.step] in Hstep. rewrite Heq, Hres in Hstep.
  rewrite bool_decide_eq_true_2 in Hstep by done. simpl in Hstep.
  rewrite record_result in Hres. unfold TH.can_send_message in Hres.
  rewrite Hstep in Hres. simpl in Hres. apply Z.leb_le in Hres. lia.
Qed.

(** C5, as the specification states it, fails: an admitted call may store
    what is stored already.  With [min_interval = 0] a second
    [record_message] at the instant of the first returns [True] and leaves
    the object as it was; so does, with a negative window, a second
    [record_message] of the sliding-window limiter, which drops the only
    timestamp and appends it again. *)
Lemma record_admitted_but_unchanged :
  (let self := TH.run (TH.__init__ 0) [TH.RecordMessage "a" 3 3] in
   let o := TH.record_message self "a" 3 3 in
   result o = true /\ after o = self) /\
  (let self := SW.run (SW.__init__ (-1) 1) [SW.RecordMessage "a" 5 5] in
   let o := SW.record_message self "a" 5 5 in
   SW.reachable self /\ result o = true /\ after o = self).
Proof.
  split; cbn zeta.
  - split; [done|]. by vm_compute.
  - split; [apply run_reachable|]. split; [done|]. by vm_compute.
Qed.

(** C5 (amended): mutation iff admitted.  For both limiters, for every user
    and every instant, in every reachable state of the sliding-window
    limiter and every state of the throttling limiter: when
    [record_message] returns [False] the object after the call equals the
    object before it; and where [window_size >= 0] (sliding window),
    respectively [min_interval > 0] (throttling), and the clock does not
    run backward between the two reads of the call, the object after the
    call differs from the object before it if and only if the call returns
    [True]. *)
Theorem record_changes_state_iff_admitted :
  (forall self user_id t_check t,
     SW.reachable self ->
     let o := SW.record_message self user_id t_check t in
     (result o = false -> after o = self) /\
     (0 <= SW.window_size self -> t_check <= t ->
      (after o <> self <-> result o = true))) /\
  (forall self user_id t_check t,
     let o := TH.record_message self user_id t_check t in
     (result o = false -> after o = self) /\
     (0 < TH.min_interval self -> t_check <= t ->
      (after o <> self <-> result o = true))).
Proof.
  split.
  - intros self k t1 t2 Hr o. pose proof (reachable_bounded self Hr) as Hb.
    assert (result o = false -> after o = self) as Hden.
    { intros Hres. subst o.
      by rewrite (record_denied_untouched self k t1 t2 Hb Hres). }
    split; [done|]. intros Hw H12. split.
    + intros Hne. destruct (result o) eqn:Hres; [done|]. by destruct Hne; auto.
    + by apply sw_record_admitted_changes.
  - intros self k t1 t2 o.
    assert (result o = false -> after o = self) as Hden.
    { subst o. rewrite th_record_message_unfold.
      by destruct (result (TH.can_send_message self k t1)). }
    split; [done|]. intros Hi H12. split.
    + intros Hne. destruct (result o) eqn:Hres; [done|]. by destruct Hne; auto.
    + by apply th_record_admitted_changes.
Qed.

Lemma record_changes_state_iff_admitted_witness :
  after (SW.record_message
           (SW.run (SW.__init__ 10 1) [SW.RecordMessage "a" 0 0]) "a" 5 5)
  = SW.run (SW.__init__ 10 1) [SW.RecordMessage "a" 0 0] /\
  after (SW.record_message
           (SW.run (SW.__init__ 10 1) [SW.RecordMessage "a" 0 0]) "a" 11 12)
  <> SW.run (SW.__init__ 10 1) [SW.RecordMessage "a" 0 0] /\
  after (TH.record_message
           (TH.run (TH.__init__ 10) [TH.RecordMessage "a" 0 0]) "a" 10 10)
  <> TH.run (TH.__init__ 10) [TH.RecordMessage "a" 0 0].
Proof.
  split; [|split].
  - apply (proj1 record_changes_state_iff_admitted
             (SW.run (SW.__init__ 10 1) [SW.RecordMessage "a" 0 0]) "a" 5 5
             (run_reachable _ _ _)).
    reflexivity.
  - apply (proj1 record_changes_state_iff_admitted
             (SW.run (SW.__init__ 10 1) [SW.RecordMessage "a" 0 0]) "a" 11 12
             (run_reachable _ _ _)).
    + by vm_compute.
    + lia.
    + reflexivity.
  - apply (proj2 record_changes_state_iff_admitted
             (TH.run (TH.__init__ 10) [TH.RecordMessage "a" 0 0]) "a" 10 10).
    + by vm_compute.
    + lia.
    + reflexivity.
Defined.

(** ** The length of a stored deque *)

(** X16: the stored deque is short.  In every reachable state of the
    sliding-window limiter, whatever the limit, a user's deque holds at
    most [burst] timestamps ([max_requests], or one if [max_requests] is
    below one), and so at most [burst] of them lie in any window. *)
Theorem sw_deque_at_most_burst self user_id q now :
  SW.reachable self ->
  SW.users_history self !! user_id = Some q ->
  (length q <= SW.burst self)%nat /\
  (SW.count_in_window self user_id now <= SW.burst self)%nat.
Proof.
  intros Hr Hq. destruct (reachable_bounded self Hr _ _ Hq) as [_ Hlen].
  assert (length q <= SW.burst self)%nat as Hb by (unfold SW.burst; lia).
  split; [done|]. unfold SW.count_in_window. rewrite Hq. simpl.
  pose proof (length_filter (fun t => now - SW.window_size self <= t) q). lia.
Qed.

Lemma sw_deque_at_most_burst_witness :
  (length [0; 2] <= SW.burst
                      (SW.run (SW.__init__ 10 2)
                         [SW.RecordMessage "a" 0 0; SW.RecordMessage "a" 1 2;
                          SW.RecordMessage "a" 3 3]))%nat /\
  (SW.count_in_window
     (SW.run (SW.__init__ 10 2)
        [SW.RecordMessage "a" 0 0; SW.RecordMessage "a" 1 2;
         SW.RecordMessage "a" 3 3]) "a" 3
   <= SW.burst
        (SW.run (SW.__init__ 10 2)
           [SW.RecordMessage "a" 0 0; SW.RecordMessage "a" 1 2;
            SW.RecordMessage "a" 3 3]))%nat.
Proof.
  apply (sw_deque_at_most_burst
           (SW.run (SW.__init__ 10 2)
              [SW.RecordMessage "a" 0 0; SW.RecordMessage "a" 1 2;
               SW.RecordMessage "a" 3 3]) "a" [0; 2] 3).
  - apply run_reachable.
  - reflexivity.
Defined.
